(** * py-translate: the coroutine pipeline of [translate/coroutines.py]

    A shallow embedding of [source], [spool], [set_task] and [write_stream],
    and the properties of the pipeline they form.

    Python generators are modelled at their [yield] points: a generator is
    its local variables, a [send] function that runs from one [yield] to the
    next, and a [close] function that runs the [except GeneratorExit] block.
    Everything a coroutine does to the outside (standard output, the worker
    pool, the downstream coroutine) is threaded through a state monad whose
    state survives an exception, as printed text does. *)

From stdpp Require Import base gmap list strings.
From Stdlib Require Import Ascii ZArith Lia.

Local Open Scope Z_scope.

(** ** Python strings *)

Abbreviation len := String.length.

(** The newline character written by [printer('\n')]. *)
Definition nl : string := String "010"%char "".

(** [s.partition(c)] for a one-character separator: the text before the first
    occurrence, the separator, the text after it; [(s, '', '')] when [c] does
    not occur in [s]. *)
Fixpoint partition (c : ascii) (s : string) : string * string * string :=
  match s with
  | EmptyString => (EmptyString, EmptyString, EmptyString)
  | String a s' =>
      if decide (a = c) then (EmptyString, String c EmptyString, s')
      else let '(init, sep, rest) := partition c s' in (String a init, sep, rest)
  end.

(** [s.split(c)] for a one-character separator: the pieces of [s] between the
    occurrences of [c]. *)
Fixpoint str_split (c : ascii) (s : string) : list string :=
  match s with
  | EmptyString => [EmptyString]
  | String a s' =>
      if decide (a = c) then EmptyString :: str_split c s'
      else match str_split c s' with
           | piece :: pieces => String a piece :: pieces
           | [] => [String a EmptyString]
           end
  end.

(** [''.join(l)] *)
Definition join (l : list string) : string := foldr String.append "" l.

(** Iterating over a [str] yields its characters as one-character strings. *)
Fixpoint chars (s : string) : list string :=
  match s with
  | EmptyString => []
  | String a s' => String a EmptyString :: chars s'
  end.

(** A string made of [n] copies of one character. *)
Fixpoint replicate_char (n : nat) (a : ascii) : string :=
  match n with
  | O => EmptyString
  | S k => String a (replicate_char k a)
  end.

(** ** Exceptions and effects *)

(** An exception is identified by the name of its class. *)
Definition exn := string.

(** What running a piece of Python gives: a value, a raised exception, or no
    return at all. *)
Inductive outcome (A : Type) : Type :=
  | Ok (a : A)
  | Raised (e : exn)
  | Hang.
Arguments Ok {A} a.
Arguments Raised {A} e.
Arguments Hang {A}.

(** Computations over a world [W]. The world is returned in every case: what
    was written before an exception stays written. *)
Definition M (W A : Type) : Type := W → W * outcome A.

Definition ret {W A} (a : A) : M W A := λ w, (w, Ok a).

Definition bind {W A B} (c : M W A) (k : A → M W B) : M W B :=
  λ w, match c w with
       | (w', Ok a) => k a w'
       | (w', Raised e) => (w', Raised e)
       | (w', Hang) => (w', Hang)
       end.

Definition raise {W A} (e : exn) : M W A := λ w, (w, Raised e).

Definition hang {W A} : M W A := λ w, (w, Hang).

(** [assert(b)], with assertions enabled. *)
Definition py_assert {W} (b : bool) : M W unit :=
  if b then ret tt else raise "AssertionError".

Declare Scope py_scope.
Delimit Scope py_scope with py.
Notation "'let*' x ':=' c 'in' k" := (bind c (λ x, k))
  (at level 10, x name, c at level 100, k at level 200) : py_scope.
Notation "c1 ;; c2" := (bind c1 (λ _, c2))
  (at level 100, c2 at level 200, right associativity) : py_scope.
Local Open Scope py_scope.

(** [for x in l: body(x)] *)
Fixpoint for_each {W A} (body : A → M W unit) (l : list A) : M W unit :=
  match l with
  | [] => ret tt
  | x :: l' => body x ;; for_each body l'
  end.

(** A coroutine object as its clients see it: [send] and [close]. *)
Record coroutine (W : Type) : Type := Coroutine {
  co_send : string → M W unit;
  co_close : M W unit
}.
Arguments Coroutine {W} _ _.
Arguments co_send {W} _ _.
Arguments co_close {W} _.

(** ** [source] *)

Section source.
Context {W : Type}.
Variable target : coroutine W.

(** The inner [while len(line) > 500] loop of one line; returns the value of
    [line] when the loop exits. Every iteration that does not raise removes
    at least the separator from [line], so [fuel] bounds the iterations. *)
Fixpoint source_while (fuel : nat) (line : string) : M W string :=
  match fuel with
  | O => hang
  | S fuel' =>
      if decide (500 < len line)%nat then
        let '(init, sep, line') := partition " " line in
        py_assert (bool_decide (len init ≤ 500)%nat) ;;
        co_send target (join [init; sep]) ;;
        source_while fuel' line'
      else ret line
  end.

(** The body of [for line in sys.stdin]. *)
Definition source_line (line : string) : M W unit :=
  let* line' := source_while (S (len line)) line in
  co_send target line'.

(** [source(target)], reading the lines [stdin]. *)
Definition source (stdin : list string) : M W unit :=
  for_each source_line stdin ;; co_close target.
End source.

(** A consumer that only records what it is sent: the fragments forwarded
    downstream, in order. *)
Definition recorder : coroutine (list string) :=
  Coroutine (λ s tr, (tr ++ [s], Ok tt)) (ret tt).

(** The fragments [source] forwards for the input [stdin], and how it ends. *)
Definition forwarded (stdin : list string) : list string * outcome unit :=
  source recorder stdin [].

(** ** Generators *)

(** A generator with local variables [S] over a world [W] is a coroutine over
    [S * W]. [resume] runs it from one [yield] to the next; [finish] runs its
    [GeneratorExit] handler; [primed] is the [@coroutine] decorator: it runs
    the generator to its first [yield] and then the code that uses it. *)
Definition resume {S W} (step : S → M W S) : M (S * W) unit :=
  λ '(s, w), match step s w with
             | (w', Ok s') => ((s', w'), Ok tt)
             | (w', Raised e) => ((s, w'), Raised e)
             | (w', Hang) => ((s, w'), Hang)
             end.

Definition finish {S W} (handler : S → M W unit) : M (S * W) unit :=
  λ '(s, w), let '(w', o) := handler s w in ((s, w'), o).

Definition primed {S W A} (start : M W S) (body : M (S * W) A) : M W A :=
  λ w, match start w with
       | (w', Ok s) => let '((_, w''), o) := body (s, w') in (w'', o)
       | (w', Raised e) => (w', Raised e)
       | (w', Hang) => (w', Hang)
       end.

(** ** [accumulator] and [spool] *)

(** The two kinds of value [accumulator] is applied to. *)
Inductive pyval : Type :=
  | PyInt (n : Z)
  | PyStr (s : string).

Definition accumulator (init : pyval) (update : string) : pyval :=
  match init with
  | PyInt n => PyInt (n + Z.of_nat (len update))
  | PyStr s => PyStr (s +:+ update)
  end.

(** [functools.reduce(function, iterable, initializer)] *)
Definition reduce {A B} (function : A → B → A) (iterable : list B) (initializer : A) : A :=
  fold_left function iterable initializer.

(** The value of a variable known to hold an [int], or a [str]. [reduce] with
    [accumulator] keeps the kind of its initial value (lemmas
    [reduce_accumulator_int] and [reduce_accumulator_str]), so the other case
    of each function is never reached. *)
Definition as_int (v : pyval) : Z := match v with PyInt n => n | PyStr _ => 0 end.
Definition as_str (v : pyval) : string := match v with PyStr s => s | PyInt _ => "" end.

(** The local variables of [spool] at its [yield]. *)
Record spool_locals : Type := SpoolLocals { words : Z; text : string }.

Section spool.
Context {W : Type}.
Variable iterable : coroutine W.
Variable maxlen : Z.

(** From [words = int(); text = str()] to the next [yield]. The inner loop
    is entered only when [0 < maxlen]; otherwise the outer loop sends empty
    batches for ever and the generator never yields: [Hang], whose world
    then says nothing of those batches. *)
Definition spool_rewind : M W spool_locals :=
  if decide (0 < maxlen) then ret (SpoolLocals 0 "") else hang.

(** The two [reduce] lines after [stream = yield]. *)
Definition spool_merge (st : spool_locals) (stream : string) : spool_locals :=
  let text' := as_str (reduce accumulator (chars stream) (PyStr (text st))) in
  let words' := as_int (reduce accumulator (chars stream) (PyInt (words st))) in
  SpoolLocals words' text'.

(** [send(stream)]: from the [yield] to the next one. *)
Definition spool_send (st : spool_locals) (stream : string) : M W spool_locals :=
  let st' := spool_merge st stream in
  if decide (words st' < maxlen) then ret st'
  else co_send iterable (text st') ;; spool_rewind.

(** [close()]: the [except GeneratorExit] block. *)
Definition spool_close (st : spool_locals) : M W unit :=
  co_send iterable (text st) ;; co_close iterable.

Definition spool : coroutine (spool_locals * W) :=
  Coroutine (λ stream, resume (λ st, spool_send st stream)) (finish spool_close).
End spool.

(** The states in which [spool] can be found at its [yield]: after priming,
    and after every [send] that returns. *)
Inductive spool_reaches {W} (iterable : coroutine W) (maxlen : Z) : spool_locals → Prop :=
  | reaches_first w w' st :
      spool_rewind (W:=W) maxlen w = (w', Ok st) →
      spool_reaches iterable maxlen st
  | reaches_next st stream w w' st' :
      spool_reaches iterable maxlen st →
      spool_send iterable maxlen st stream w = (w', Ok st') →
      spool_reaches iterable maxlen st'.

(** The number of words of a text, split on white space, as the
    specification words the unit size of a fragment. *)
Definition word_count (s : string) : Z := Z.of_nat (length (String.words s)).

(** ** The world of the scheduler and the sink *)

(** A pending-result handle: the job's sequence number, from 1 in order of
    submission, and the text it was submitted with. *)
Record future : Type := Future { fid : nat; ftask : string }.

Global Instance future_eq_dec : EqDecision future.
Proof. solve_decision. Defined.

(** [stdout] is the text printed so far; [polls] counts the calls of [done];
    [submitted] lists the texts handed to [workers.submit], one call of the
    translator each; [delivered] lists the jobs whose result was passed to
    [stream], in the order of the calls. The last two are a record of what
    the program did, kept for the statements below: the program itself has
    no such lists. *)
Record world : Type := World {
  stdout : string;
  polls : nat;
  submitted : list string;
  delivered : list future
}.

Definition world0 : world := World "" 0 [] [].

(** A translation result: a dict whose key ['sentences'] holds a list of
    dicts from field names to text. *)
Abbreviation sentence := (gmap string string).
Abbreviation script := (gmap string (list (gmap string string))).

(** ** [write_stream] *)

(** [print(s, file=sys.stdout, end='')] *)
Definition printer (s : string) : M world unit :=
  λ w, (World (stdout w +:+ s) (polls w) (submitted w) (delivered w), Ok tt).

(** [printer(line[output])] *)
Definition print_field (output : string) (line : sentence) : M world unit :=
  match line !! output with
  | Some s => printer s
  | None => raise "KeyError"
  end.

Definition write_stream (scr : script) (output : string) : M world unit :=
  match scr !! "sentences" with
  | None => raise "TypeError"
  | Some sentences =>
      match sentences with
      | [] => raise "IndexError"
      | first :: _ =>
          py_assert (bool_decide (is_Some (first !! output))) ;;
          for_each (print_field output) sentences ;;
          printer nl
      end
  end.

(** ** [set_task] *)

Section set_task.
(** The translation function: a result, or the exception it raises. *)
Variable translator : string → exn + script.
(** The worker pool: [finished n i] tells whether job [i] has completed when
    [done] is called for the [n]-th time. *)
Variable finished : nat → nat → bool.
Variable translit : bool.

Definition output : string := if translit then "translit" else "trans".

(** [workers.submit(translator, task)] *)
Definition submit (task : string) : M world future :=
  λ w, (World (stdout w) (polls w) (submitted w ++ [task]) (delivered w),
        Ok (Future (S (length (submitted w))) task)).

(** [done(f)] *)
Definition done (f : future) : M world bool :=
  λ w, (World (stdout w) (S (polls w)) (submitted w) (delivered w),
        Ok (finished (polls w) (fid f))).

(** [result(f)]: waits for the job and returns what the translator returned,
    or raises what it raised. *)
Definition result (f : future) : M world script :=
  match translator (ftask f) with
  | inl e => raise e
  | inr scr => ret scr
  end.

(** [stream(result(f))] *)
Definition stream_result (f : future) : M world unit :=
  let* scr := result f in
  (λ w, (World (stdout w) (polls w) (submitted w) (delivered w ++ [f]), Ok tt)) ;;
  write_stream scr output.

(** [while queue and done(first(queue)): stream(result(queue.pop()))];
    returns the queue when the loop exits. Every iteration removes one
    element, so [fuel] bounds the iterations. *)
Fixpoint drain (fuel : nat) (queue : list future) : M world (list future) :=
  match fuel with
  | O => hang
  | S fuel' =>
      match queue with
      | [] => ret queue
      | first :: _ =>
          let* d := done first in
          if d : bool then
            match last queue with
            | Some f => stream_result f ;; drain fuel' (removelast queue)
            | None => raise "IndexError"
            end
          else ret queue
      end
  end.

(** [send(task)]: from [task = yield] to the next [yield]. *)
Definition set_task_send (queue : list future) (task : string) : M world (list future) :=
  let* f := submit task in
  drain (S (length (queue ++ [f]))) (queue ++ [f]).

(** [close()]: the [except GeneratorExit] block. [workers.shutdown(wait=True)]
    waits for every job; the [map]s, lazy as in Python 3, then fetch and
    stream the results of the queue one by one from its front. *)
Definition set_task_close (queue : list future) : M world unit :=
  for_each stream_result queue.

Definition set_task : coroutine (list future * world) :=
  Coroutine (λ task, resume (λ queue, set_task_send queue task)) (finish set_task_close).

(** [batches] sent to [set_task] one after the other, then [close()]. *)
Definition schedule (batches : list string) : M world unit :=
  primed (ret []) (for_each (co_send set_task) batches ;; co_close set_task).

(** [source(spool(set_task(translator, translit), maxlen))] *)
Definition pipeline (maxlen : Z) (stdin : list string) : M world unit :=
  primed (ret []) (primed (spool_rewind maxlen) (source (spool set_task maxlen) stdin)).
End set_task.

(** A stub translator that returns its input unchanged, as one segment. *)
Definition echo (task : string) : exn + script :=
  inr {[ "sentences" := [ {[ "trans" := task; "translit" := task ]} ] ]}.

(** A worker pool in which every job is found to have completed from the
    [k]-th call of [done] on, and none before: a job found done stays done. *)
Definition finishes_at (k : nat) : nat → nat → bool :=
  λ n _, bool_decide (k ≤ n)%nat.

(** The jobs that submitting [batches] in order creates. *)
Definition jobs (batches : list string) : list future :=
  imap (λ i task, Future (S i) task) batches.

(** A result that [write_stream] prints in full: it has segments and every
    segment has the field [output]. *)
Definition printable (output : string) (scr : script) : Prop :=
  ∃ sentences : list sentence,
    scr !! "sentences" = Some sentences ∧ sentences ≠ [] ∧
    Forall (λ line : sentence, is_Some (line !! output)) sentences.

(** A job whose result [stream] prints in full. *)
Definition deliverable (translator : string → exn + script) (translit : bool)
    (f : future) : Prop :=
  ∃ scr, translator (ftask f) = inr scr ∧ printable (output translit) scr.

(** The text of the field [output] of every segment, in order. *)
Definition fields (output : string) (sentences : list sentence) : list string :=
  omap (λ line : sentence, line !! output) sentences.

(** The text that [write_stream] prints for the result of job [f]. *)
Definition rendered (translator : string → exn + script) (translit : bool)
    (f : future) : string :=
  match translator (ftask f) with
  | inr scr =>
      match scr !! "sentences" with
      | Some sentences => join (fields (output translit) sentences) +:+ nl
      | None => ""
      end
  | inl _ => ""
  end.

(** The jobs of a queue whose result has not been passed to the sink. *)
Definition pending (queue : list future) (w : world) : list future :=
  filter (λ f, f ∉ delivered w) queue.

(** A line that needs no cut elsewhere than at white space, as the
    specification words the condition: none of its words, split on white
    space of any kind (space, tab, newline), is longer than 500 characters. *)
Definition short_words (line : string) : Prop :=
  Forall (λ word, len word ≤ 500)%nat (String.words line).

(** ** Notions for the properties of the whole code *)

(** A computation that only ends the way [o] says. *)
Definition conclude {W A} (o : outcome A) : M W A :=
  match o with
  | Ok a => ret a
  | Raised e => raise e
  | Hang => hang
  end.

(** The end of [source], once its loop over the input has ended the way [o]
    says: [return target.close()], or the exception, which leaves [source]
    with the target not closed. *)
Definition source_end {W} (target : coroutine W) (o : outcome unit) : M W unit :=
  match o with
  | Ok _ => co_close target
  | Raised e => raise e
  | Hang => hang
  end.

(** The split-off fragments made of [words]: each word and the separator. *)
Definition with_space (words : list string) : list string :=
  (λ word, word +:+ " ") <$> words.

(** No piece of the line between two spaces, or before the first or after
    the last, is longer than 500 characters. *)
Definition short_pieces (line : string) : Prop :=
  Forall (λ piece, len piece ≤ 500)%nat (str_split " " line).

Global Instance short_pieces_dec line : Decision (short_pieces line).
Proof. unfold short_pieces. apply _. Defined.

(** [spool] over the recorder: primed, sent [fragments] one after the other,
    then closed. The batches handed downstream, and how the session ends. *)
Definition spool_session (maxlen : Z) (fragments : list string)
    : list string * outcome unit :=
  primed (spool_rewind maxlen)
    (for_each (co_send (spool recorder maxlen)) fragments ;;
     co_close (spool recorder maxlen)) [].

(** A worker pool in which a job found done is found done ever after. *)
Definition stays_done (finished : nat → nat → bool) : Prop :=
  ∀ n i, finished n i = true → finished (S n) i = true.


(** * Properties *)

Lemma for_each_cons {W A} (body : A → M W unit) x l :
  for_each body (x :: l) = (body x ;; for_each body l).
Proof. reflexivity. Qed.

(** ** Strings *)

Lemma app_String a s t : String a s +:+ t = String a (s +:+ t).
Proof. reflexivity. Qed.

Lemma app_empty_r s : s +:+ "" = s.
Proof. induction s as [|a s IH]; [done|]. by rewrite app_String, IH. Qed.

Lemma app_assoc_str s t u : (s +:+ t) +:+ u = s +:+ t +:+ u.
Proof. induction s as [|a s IH]; [done|]. by rewrite !app_String, IH. Qed.

Lemma len_app s t : len (s +:+ t) = (len s + len t)%nat.
Proof. induction s as [|a s IH]; [done|]. rewrite app_String. simpl. by rewrite IH. Qed.

Lemma join_app l1 l2 : join (l1 ++ l2) = join l1 +:+ join l2.
Proof.
  induction l1 as [|x l1 IH]; [done|].
  simpl. unfold join in *. simpl. by rewrite IH, app_assoc_str.
Qed.

Lemma join_singleton s : join [s] = s.
Proof. unfold join. simpl. apply app_empty_r. Qed.

(** What [partition] returns, put together again, is the string; and either
    the separator was found or the whole string is the first part. *)
Lemma partition_spec c s init sep rest :
  partition c s = (init, sep, rest) →
  init +:+ sep +:+ rest = s ∧
  (sep = String c "" ∨ (sep = "" ∧ rest = "" ∧ init = s)).
Proof.
  revert init sep rest. induction s as [|a s IH]; intros init sep rest; simpl.
  - intros [= <- <- <-]. split; [done|]. by right.
  - case_decide as Hc.
    + intros [= <- <- <-]. subst a. split; [done|]. by left.
    + destruct (partition c s) as [[i sp] r] eqn:Hp.
      intros [= <- <- <-].
      destruct (IH i sp r eq_refl) as [Happ Hsep].
      split; [by rewrite app_String, Happ|].
      destruct Hsep as [->|(-> & -> & ->)]; [by left|by right].
Qed.

(** [partition] cuts where [str_split] makes its first cut. *)
Lemma partition_split c s init sep rest :
  partition c s = (init, sep, rest) →
  (sep = String c "" ∧ str_split c s = init :: str_split c rest) ∨
  (sep = "" ∧ rest = "" ∧ init = s ∧ str_split c s = [s]).
Proof.
  revert init sep rest. induction s as [|a s IH]; intros init sep rest; simpl.
  - intros [= <- <- <-]. by right.
  - case_decide as Hc.
    + intros [= <- <- <-]. by left.
    + destruct (partition c s) as [[i sp] r] eqn:Hp.
      intros [= <- <- <-].
      destruct (IH i sp r eq_refl) as [[-> Hsplit]|(-> & -> & -> & Hsplit)].
      * left. split; [done|]. by rewrite Hsplit.
      * right. by rewrite Hsplit.
Qed.

Lemma partition_no_char c s :
  c ∉ String.list_ascii_of_string s → partition c s = (s, "", "").
Proof.
  induction s as [|a s IH]; simpl; [done|].
  intros Hnin. apply not_elem_of_cons in Hnin as [Hne Hnin].
  case_decide; [congruence|]. by rewrite IH.
Qed.

(** ** [source] *)

Lemma source_while_S {W} (target : coroutine W) fuel line :
  source_while target (S fuel) line =
  if decide (500 < len line)%nat then
    let '(init, sep, line') := partition " " line in
    py_assert (bool_decide (len init ≤ 500)%nat) ;;
    co_send target (join [init; sep]) ;;
    source_while target fuel line'
  else ret line.
Proof. reflexivity. Qed.

(** The loop over one line, run against the recorder: it never runs out of
    fuel; it either stops with an [AssertionError] or returns the rest of the
    line, and the fragments sent before, followed by that rest, are the line.
    A fragment sent from the loop is at most 501 characters long. *)
Lemma source_while_recorder fuel line tr :
  (len line < fuel)%nat →
  ∃ frs o, source_while recorder fuel line tr = (tr ++ frs, o) ∧
    Forall (λ f, len f ≤ 501)%nat frs ∧
    match o with
    | Ok line' => join frs +:+ line' = line ∧ (len line' ≤ 500)%nat
    | Raised e => e = "AssertionError"
    | Hang => False
    end.
Proof.
  revert line tr. induction fuel as [|fuel IH]; intros line tr Hfuel; [lia|].
  rewrite source_while_S. case_decide as Hlong; last first.
  { exists [], (Ok line). rewrite app_nil_r. split; [done|]. split; [constructor|].
    split; [done|lia]. }
  destruct (partition " " line) as [[init sep] rest] eqn:Hp.
  destruct (partition_spec _ _ _ _ _ Hp) as [Happ Hsep].
  unfold bind at 1. unfold py_assert. case_bool_decide as Hinit; last first.
  { exists [], (Raised "AssertionError"). by rewrite app_nil_r. }
  assert (Hlen : len line = (len init + len sep + len rest)%nat).
  { by rewrite <- Happ, !len_app, Nat.add_assoc. }
  assert (Hsep' : sep = " ").
  { destruct Hsep as [->|(-> & -> & ->)]; [done|]. simpl in Hlen. lia. }
  subst sep. simpl in Hlen.
  unfold ret at 1. unfold bind at 1. unfold recorder at 1, co_send at 1.
  destruct (IH rest (tr ++ [join [init; " "]])) as (frs & o & Hrun & Hbound & Ho); [lia|].
  rewrite Hrun. exists (join [init; " "] :: frs), o.
  split; [by rewrite <- app_assoc|].
  assert (Hfrag : join [init; " "] = init +:+ " ").
  { unfold join. simpl. by rewrite app_empty_r. }
  split.
  { constructor; [|done]. rewrite Hfrag, len_app. simpl. lia. }
  destruct o as [line'|e|]; [|done|done].
  destruct Ho as [Hjoin Hle]. split; [|done].
  change (join (join [init; " "] :: frs)) with (join [init; " "] +:+ join frs).
  by rewrite Hfrag, !app_assoc_str, Hjoin.
Qed.

(** One line of input, against the recorder. *)
Lemma source_line_recorder line tr :
  ∃ frs o, source_line recorder line tr = (tr ++ frs, o) ∧
    Forall (λ f, len f ≤ 501)%nat frs ∧
    match o with
    | Ok _ => join frs = line
    | Raised e => e = "AssertionError"
    | Hang => False
    end.
Proof.
  unfold source_line, bind.
  destruct (source_while_recorder (S (len line)) line tr) as (frs & o & -> & Hbound & Ho); [lia|].
  destruct o as [line'|e|].
  - destruct Ho as [Hjoin Hle]. exists (frs ++ [line']), (Ok tt).
    split; [by rewrite app_assoc|].
    split; [apply Forall_app; split; [done|]; apply Forall_singleton; lia|].
    by rewrite join_app, join_singleton.
  - by exists frs, (Raised e).
  - done.
Qed.

(** The whole input, against the recorder. *)
Lemma source_for_recorder stdin tr :
  ∃ frs o, for_each (source_line recorder) stdin tr = (tr ++ frs, o) ∧
    Forall (λ f, len f ≤ 501)%nat frs ∧
    match o with
    | Ok _ => join frs = join stdin
    | Raised e => e = "AssertionError"
    | Hang => False
    end.
Proof.
  revert tr. induction stdin as [|line stdin IH]; intros tr.
  { exists [], (Ok tt). by rewrite app_nil_r. }
  simpl. unfold bind.
  destruct (source_line_recorder line tr) as (frs & o & -> & Hbound & Ho).
  destruct o as [[]|e|]; [|by exists frs, (Raised e)|done].
  destruct (IH (tr ++ frs)) as (frs' & o' & -> & Hbound' & Ho').
  exists (frs ++ frs'), o'. split; [by rewrite app_assoc|].
  split; [by apply Forall_app|].
  destruct o' as [[]|e|]; [|done|done].
  rewrite join_app, Ho, Ho'. reflexivity.
Qed.

Lemma forwarded_for stdin :
  forwarded stdin =
  match for_each (source_line recorder) stdin [] with
  | (tr, Ok _) => (tr, Ok tt)
  | (tr, Raised e) => (tr, Raised e)
  | (tr, Hang) => (tr, Hang)
  end.
Proof.
  unfold forwarded, source, bind.
  by destruct (for_each (source_line recorder) stdin []) as [tr [[]|e|]].
Qed.

(** [source] returns or raises on every input: its loops terminate. *)
Lemma forwarded_total stdin : (forwarded stdin).2 ≠ Hang.
Proof.
  rewrite forwarded_for.
  destruct (source_for_recorder stdin []) as (frs & o & -> & _ & Ho).
  by destruct o.
Qed.

(** Every fragment that [source] forwards has at most 501 characters: at most
    500 before the separator, and the separator. *)
Lemma forwarded_bound stdin :
  Forall (λ f, len f ≤ 501)%nat (forwarded stdin).1.
Proof.
  rewrite forwarded_for.
  destruct (source_for_recorder stdin []) as (frs & o & -> & Hbound & _).
  by destruct o.
Qed.

(** C2, at the input that breaks it: for the line of 500 ['a'], a space and a
    ['b'], [source] passes its assertion and forwards a first fragment of 501
    characters, the 500 characters before the space and the space, although
    the maximum fragment length is 500. *)
Theorem source_forwards_501 :
  forwarded [replicate_char 500 "a" +:+ " b"] =
    ([replicate_char 500 "a" +:+ " "; "b"], Ok tt) ∧
  len (replicate_char 500 "a" +:+ " ") = 501%nat.
Proof. split; vm_compute; reflexivity. Qed.

(** C6 as stated fails: for one line of 1200 characters without a space,
    [source] neither forwards fragments of at most 500 characters that make
    up the line nor raises [InputTooLongError]. *)
Lemma source_long_token_counterexample :
  ¬ (let '(frs, o) := forwarded [replicate_char 1200 "a"] in
     (o = Ok tt ∧ Forall (λ f, len f ≤ 500)%nat frs) ∨
     o = Raised "InputTooLongError").
Proof.
  assert (Hrun : forwarded [replicate_char 1200 "a"] = ([], Raised "AssertionError"))
    by (vm_compute; reflexivity).
  rewrite Hrun. intros [[[=] _]|[=]].
Qed.

(** C6, amended: for an input that is one line without a space and longer
    than 500 characters, [source] raises [AssertionError], from its
    [assert(len(init) <= 500)], and forwards no fragment. *)
Theorem source_long_token_asserts (line : string) :
  " "%char ∉ String.list_ascii_of_string line →
  (500 < len line)%nat →
  forwarded [line] = ([], Raised "AssertionError").
Proof.
  intros Hnospace Hlong.
  unfold forwarded, source. simpl for_each. unfold source_line.
  rewrite source_while_S. rewrite decide_True by done.
  rewrite (partition_no_char _ _ Hnospace).
  unfold bind, py_assert. rewrite bool_decide_false by lia. reflexivity.
Qed.

Lemma source_long_token_asserts_witness :
  forwarded [replicate_char 1200 "a"] = ([], Raised "AssertionError").
Proof.
  apply (source_long_token_asserts (replicate_char 1200 "a")).
  - apply (bool_decide_unpack _). vm_compute. exact I.
  - vm_compute. lia.
Defined.

(** When no piece of the line between two spaces is longer than 500
    characters, the assertion of the loop holds every time. *)
Lemma source_while_pieces fuel line tr :
  Forall (λ piece, len piece ≤ 500)%nat (str_split " " line) →
  ∀ tr' e, source_while recorder fuel line tr ≠ (tr', Raised e).
Proof.
  revert line tr. induction fuel as [|fuel IH]; intros line tr Hpieces tr' e; [done|].
  rewrite source_while_S. case_decide as Hlong; [|done].
  destruct (partition " " line) as [[init sep] rest] eqn:Hp.
  destruct (partition_split _ _ _ _ _ Hp) as [[-> Hsplit]|(-> & -> & -> & Hsplit)];
    rewrite Hsplit in Hpieces.
  - apply Forall_cons in Hpieces as [Hinit Hrest].
    unfold bind at 1. unfold py_assert. rewrite bool_decide_true by done.
    unfold ret at 1. unfold bind at 1. unfold recorder at 1, co_send at 1.
    by apply IH.
  - rewrite Forall_singleton in Hpieces. lia.
Qed.

(** C8 as stated fails: a line of 300 ['a'], a tab and 300 ['b'] has no
    word longer than 500 characters, and a line of 500 ['a'] and a newline
    has none either, so neither needs a cut elsewhere than at white space;
    but [source] cuts at the space character only, finds no space in these
    lines of 601 and 501 characters, and raises [AssertionError] with
    nothing forwarded: the fragments do not make up the input. *)
Lemma source_whitespace_counterexample :
  (short_words (replicate_char 300 "a" +:+ String "009" (replicate_char 300 "b")) ∧
   forwarded [replicate_char 300 "a" +:+ String "009" (replicate_char 300 "b")] =
     ([], Raised "AssertionError") ∧
   join (forwarded [replicate_char 300 "a" +:+ String "009" (replicate_char 300 "b")]).1
     ≠ join [replicate_char 300 "a" +:+ String "009" (replicate_char 300 "b")]) ∧
  (short_words (replicate_char 500 "a" +:+ nl) ∧
   forwarded [replicate_char 500 "a" +:+ nl] = ([], Raised "AssertionError") ∧
   join (forwarded [replicate_char 500 "a" +:+ nl]).1 ≠ join [replicate_char 500 "a" +:+ nl]).
Proof.
  split; (split; [|split]).
  - apply (bool_decide_unpack _). vm_compute. exact I.
  - vm_compute. reflexivity.
  - vm_compute. discriminate.
  - apply (bool_decide_unpack _). vm_compute. exact I.
  - vm_compute. reflexivity.
  - vm_compute. discriminate.
Qed.

(** C8, amended: when no line of the input has a piece between two space
    characters, or before the first or after the last, longer than 500
    characters, so that no line needs to be cut elsewhere than at a space,
    [source] runs to its end and the fragments it has forwarded,
    concatenated in order, are the input. *)
Theorem source_no_loss (stdin : list string) :
  Forall (λ line, Forall (λ piece, len piece ≤ 500)%nat (str_split " " line)) stdin →
  ∃ frs, forwarded stdin = (frs, Ok tt) ∧ join frs = join stdin.
Proof.
  intros Hpieces. rewrite forwarded_for.
  enough (Hfor : ∀ tr, ∃ frs, for_each (source_line recorder) stdin tr = (tr ++ frs, Ok tt) ∧
                              join frs = join stdin).
  { destruct (Hfor []) as (frs & -> & Hjoin). by exists frs. }
  induction Hpieces as [|line stdin Hline _ IH]; intros tr.
  { exists []. by rewrite app_nil_r. }
  rewrite for_each_cons. unfold bind.
  destruct (source_line_recorder line tr) as (frs & o & Hrun & _ & Ho).
  destruct o as [[]|e|]; [|exfalso|done].
  - rewrite Hrun. destruct (IH (tr ++ frs)) as (frs' & -> & Hjoin).
    exists (frs ++ frs'). split; [by rewrite app_assoc|].
    rewrite join_app, Ho, Hjoin. reflexivity.
  - unfold source_line, bind in Hrun.
    destruct (source_while recorder (S (len line)) line tr) as [tr1 [line'|e1|]] eqn:Hwhile.
    + unfold recorder at 1, co_send at 1 in Hrun. discriminate.
    + by eapply source_while_pieces.
    + discriminate.
Qed.

Lemma source_no_loss_witness :
  ∃ frs,
    forwarded ["hello world" +:+ nl;
               replicate_char 300 "a" +:+ " " +:+ replicate_char 300 "b" +:+ nl] =
      (frs, Ok tt) ∧
    join frs =
    join ["hello world" +:+ nl;
          replicate_char 300 "a" +:+ " " +:+ replicate_char 300 "b" +:+ nl].
Proof.
  apply (source_no_loss
           ["hello world" +:+ nl;
            replicate_char 300 "a" +:+ " " +:+ replicate_char 300 "b" +:+ nl]).
  apply (bool_decide_unpack _). vm_compute. exact I.
Defined.

(** ** [accumulator] and [spool] *)

(** [reduce(accumulator, stream, words)] adds 1 for every character of
    [stream]: the elements of a [str] are its characters. *)
Lemma reduce_accumulator_int stream n :
  reduce accumulator (chars stream) (PyInt n) = PyInt (n + Z.of_nat (len stream)).
Proof.
  unfold reduce. revert n. induction stream as [|a stream IH]; intros n; simpl.
  - f_equal. lia.
  - rewrite IH. f_equal. lia.
Qed.

(** [reduce(accumulator, stream, text)] appends [stream] to [text]. *)
Lemma reduce_accumulator_str stream s :
  reduce accumulator (chars stream) (PyStr s) = PyStr (s +:+ stream).
Proof.
  unfold reduce. revert s. induction stream as [|a stream IH]; intros s; simpl.
  - by rewrite app_empty_r.
  - rewrite IH. f_equal. by rewrite app_assoc_str.
Qed.

Lemma spool_merge_eq st stream :
  spool_merge st stream =
  SpoolLocals (words st + Z.of_nat (len stream)) (text st +:+ stream).
Proof.
  unfold spool_merge. by rewrite reduce_accumulator_int, reduce_accumulator_str.
Qed.

(** C3 as stated fails: receiving the fragment ["hello world"], of two words,
    in a fresh [spool] adds 11 to the running count. *)
Lemma spool_word_count_counterexample :
  ∃ st', spool_send recorder 1200 (SpoolLocals 0 "") "hello world" [] = ([], Ok st') ∧
         words st' ≠ 0 + word_count "hello world".
Proof. exists (SpoolLocals 11 "hello world"). split; [reflexivity|]. vm_compute. discriminate. Qed.

(** C3, amended: for every fragment received by [spool], the running count is
    incremented by the number of characters of the fragment, and the fragment
    is appended to the running text. *)
Theorem spool_counts_characters (st : spool_locals) (stream : string) :
  words (spool_merge st stream) = words st + Z.of_nat (len stream) ∧
  text (spool_merge st stream) = text st +:+ stream.
Proof. by rewrite spool_merge_eq. Qed.

(** At every [yield] of [spool] the running count is below the threshold,
    and the threshold is positive, or [spool] would not have yielded. *)
Lemma spool_reaches_below {W} (iterable : coroutine W) maxlen st :
  spool_reaches iterable maxlen st → 0 < maxlen ∧ words st < maxlen.
Proof.
  assert (Hrewind : ∀ w w' st', spool_rewind (W:=W) maxlen w = (w', Ok st') →
                                0 < maxlen ∧ words st' < maxlen).
  { intros w w' st'. unfold spool_rewind. case_decide; [|done]. by intros [= _ <-]. }
  induction 1 as [w w' st Hfirst|st stream w w' st' _ IH Hsend]; [by eapply Hrewind|].
  unfold spool_send in Hsend. case_decide as Hlt.
  - injection Hsend as _ <-. split; [apply IH|done].
  - unfold bind in Hsend.
    destruct (co_send iterable _ w) as [w1 [[]|e|]]; [|done|done].
    by eapply Hrewind.
Qed.

(** C7: when a [send] makes [spool] flush a batch, the running count has
    reached the threshold with the fragment just merged, it was below the
    threshold before that merge, the batch is the text accumulated, and
    [spool] goes on with count zero and empty text. *)
Theorem spool_flush_threshold (maxlen : Z) (st : spool_locals) (stream : string)
    (tr tr' : list string) (o : outcome spool_locals) :
  spool_reaches recorder maxlen st →
  spool_send recorder maxlen st stream tr = (tr', o) →
  tr' ≠ tr →
  tr' = tr ++ [text st +:+ stream] ∧
  maxlen ≤ words st + Z.of_nat (len stream) ∧
  words st < maxlen ∧
  o = Ok (SpoolLocals 0 "").
Proof.
  intros Hreach Hsend Hflush.
  destruct (spool_reaches_below _ _ _ Hreach) as [Hpos Hbelow].
  unfold spool_send in Hsend. rewrite spool_merge_eq in Hsend. simpl in Hsend.
  case_decide as Hlt.
  - injection Hsend as <- _. done.
  - unfold bind, spool_rewind in Hsend. simpl in Hsend.
    rewrite decide_True in Hsend by lia.
    injection Hsend as <- <-. repeat split; [lia|done].
Qed.

Lemma spool_flush_threshold_witness :
  spool_send recorder 5 (SpoolLocals 2 "ab") "hello" ["xyzzy"] =
    (["xyzzy"; "abhello"], Ok (SpoolLocals 0 "")) ∧
  5 ≤ 2 + Z.of_nat (len "hello") ∧ 2 < 5.
Proof.
  assert (Hreach : spool_reaches recorder 5 (SpoolLocals 2 "ab")).
  { apply (reaches_next recorder 5 (SpoolLocals 0 "") "ab" [] []).
    - by apply (reaches_first recorder 5 [] []).
    - reflexivity. }
  destruct (spool_flush_threshold 5 (SpoolLocals 2 "ab") "hello" ["xyzzy"]
              ["xyzzy"; "abhello"] (Ok (SpoolLocals 0 "")) Hreach eq_refl)
    as (_ & Hge & Hlt & _); [discriminate|].
  split; [reflexivity|]. split; [exact Hge|exact Hlt].
Defined.

(** ** [write_stream] *)

Lemma for_each_print_fields output (sentences : list sentence) w :
  Forall (λ line : sentence, is_Some (line !! output)) sentences →
  for_each (print_field output) sentences w =
  (World (stdout w +:+ join (fields output sentences)) (polls w) (submitted w)
     (delivered w), Ok tt).
Proof.
  intros Hall. revert w. induction Hall as [|line sentences [s Hs] _ IH]; intros w.
  { simpl. unfold ret. rewrite app_empty_r. by destruct w. }
  simpl. unfold bind, print_field, fields. simpl. rewrite Hs. simpl.
  rewrite IH. simpl. unfold fields.
  change (join (s :: ?l)) with (s +:+ join l). by rewrite app_assoc_str.
Qed.

(** C5 as stated fails: for a result of one segment whose field is ["hi"],
    [write_stream] writes more than the text of the segment. *)
Lemma write_stream_terminator_counterexample :
  stdout (write_stream {[ "sentences" := [ {[ "trans" := "hi" ]} ] ]} "trans" world0).1
  ≠ join (fields "trans" [ {[ "trans" := "hi" ]} ]).
Proof. vm_compute. discriminate. Qed.

(** What [write_stream] writes for a result that has segments which all
    have the field. *)
Lemma write_stream_prints (scr : script) (sentences : list sentence)
    (output : string) (w : world) :
  scr !! "sentences" = Some sentences →
  sentences ≠ [] →
  Forall (λ line : sentence, is_Some (line !! output)) sentences →
  write_stream scr output w =
  (World (stdout w +:+ join (fields output sentences) +:+ nl) (polls w)
     (submitted w) (delivered w), Ok tt).
Proof.
  intros Hscr Hne Hall. unfold write_stream. rewrite Hscr.
  destruct sentences as [|first rest]; [done|].
  unfold bind at 1. unfold py_assert.
  rewrite bool_decide_true by (by inversion Hall). unfold ret at 1.
  unfold bind. rewrite (for_each_print_fields _ _ _ Hall).
  unfold printer. simpl. by rewrite app_assoc_str.
Qed.

(** C5, amended: for every result written by [write_stream], the selected
    field of each segment is written in order with no separator between
    segments, and one newline is written after the segments of that result,
    hence after each result and not once at final shutdown. *)
Theorem write_stream_output (scr : script) (sentences : list sentence)
    (output : string) (w : world) :
  scr !! "sentences" = Some sentences →
  sentences ≠ [] →
  Forall (λ line : sentence, is_Some (line !! output)) sentences →
  stdout (write_stream scr output w).1 =
    stdout w +:+ join (fields output sentences) +:+ nl ∧
  (write_stream scr output w).2 = Ok tt.
Proof.
  intros Hscr Hne Hall. by rewrite (write_stream_prints _ _ _ _ Hscr Hne Hall).
Qed.

Lemma write_stream_output_witness :
  stdout (write_stream
            {[ "sentences" := [ {[ "trans" := "hello " ]}; {[ "trans" := "world" ]} ] ]}
            "trans" world0).1 = "hello world" +:+ nl.
Proof.
  destruct (write_stream_output
              {[ "sentences" := [ {[ "trans" := "hello " ]}; {[ "trans" := "world" ]} ] ]}
              [ {[ "trans" := "hello " ]}; {[ "trans" := "world" ]} ]
              "trans" world0) as [Hout _].
  - reflexivity.
  - discriminate.
  - apply (bool_decide_unpack _). vm_compute. exact I.
  - rewrite Hout. vm_compute. reflexivity.
Defined.

(** C9 as stated fails: for a result whose first segment lacks the field
    ["trans"], [write_stream] does not fail with [ConfigurationError]. *)
Lemma write_stream_missing_field_counterexample :
  (write_stream {[ "sentences" := [ {[ "translit" := "x" ]} ] ]} "trans" world0).2
  ≠ Raised "ConfigurationError".
Proof. vm_compute. discriminate. Qed.

(** C9, amended: for every result whose first segment lacks the configured
    output field, [write_stream] raises [AssertionError], from its
    [assert(output in sentences[0])], before anything is written for that
    result: the world, with what was written before, is unchanged. *)
Theorem write_stream_missing_field (scr : script) (first : sentence)
    (rest : list sentence) (output : string) (w : world) :
  scr !! "sentences" = Some (first :: rest) →
  first !! output = None →
  write_stream scr output w = (w, Raised "AssertionError").
Proof.
  intros Hscr Hnone. unfold write_stream. rewrite Hscr.
  unfold bind, py_assert. rewrite bool_decide_false; [done|].
  rewrite Hnone. by intros [? [=]].
Qed.

Lemma write_stream_missing_field_witness :
  write_stream {[ "sentences" := [ {[ "translit" := "x" ]}; {[ "trans" := "y" ]} ] ]}
    "trans" (World "before" 3 ["t"] []) =
  (World "before" 3 ["t"] [], Raised "AssertionError").
Proof.
  apply (write_stream_missing_field _ {[ "translit" := "x" ]} [ {[ "trans" := "y" ]} ]);
    reflexivity.
Defined.

(** The field is looked for in the first segment only: when a later segment
    lacks it, the segments before it are written and [KeyError] is raised. *)
Example write_stream_later_segment :
  write_stream {[ "sentences" := [ {[ "trans" := "x" ]}; {[ "translit" := "y" ]} ] ]}
    "trans" world0 =
  (World "x" 0 [] [], Raised "KeyError").
Proof. reflexivity. Qed.

(** ** [set_task] *)

Lemma jobs_snoc batches task :
  jobs (batches ++ [task]) = jobs batches ++ [Future (S (length batches)) task].
Proof. unfold jobs. rewrite imap_app. simpl. by rewrite Nat.add_0_r. Qed.

Lemma jobs_length batches : length (jobs batches) = length batches.
Proof. apply length_imap. Qed.

Lemma jobs_fid batches : fid <$> jobs batches = seq 1 (length batches).
Proof.
  induction batches as [|task batches IH] using rev_ind; [done|].
  rewrite jobs_snoc, fmap_app, IH, length_app, seq_app. done.
Qed.

(** Distinct jobs have distinct sequence numbers. *)
Lemma jobs_NoDup batches : NoDup (jobs batches).
Proof.
  apply (NoDup_fmap_1 fid). rewrite jobs_fid. apply NoDup_seq.
Qed.

Lemma pending_delivered queue w :
  Forall (λ f, f ∈ delivered w) queue → pending queue w = [].
Proof.
  unfold pending. induction 1 as [|f queue Hf _ IH]; [done|].
  rewrite filter_cons_False; [done|]. by intros Hnot.
Qed.

Section set_task_facts.
Variable translator : string → exn + script.
Variable finished : nat → nat → bool.
Variable translit : bool.

Local Abbreviation sink := (stream_result translator translit).
Local Abbreviation drainq := (drain translator finished translit).
Local Abbreviation sendq := (set_task_send translator finished translit).
Local Abbreviation closeq := (set_task_close translator translit).
Local Abbreviation sched := (set_task translator finished translit).

Lemma drain_S fuel queue :
  drainq (S fuel) queue =
  match queue with
  | [] => ret queue
  | first :: _ =>
      let* d := done finished first in
      if d : bool then
        match last queue with
        | Some f => sink f ;; drainq fuel (removelast queue)
        | None => raise "IndexError"
        end
      else ret queue
  end.
Proof. reflexivity. Qed.

(** [queue.pop()] on a queue that is not empty. *)
Lemma pop_last (queue : list future) :
  queue ≠ [] →
  ∃ f, last queue = Some f ∧ queue = removelast queue ++ [f] ∧
       (length (removelast queue) < length queue)%nat.
Proof.
  intros Hne. destruct (exists_last Hne) as (q & f & ->).
  exists f. rewrite last_snoc, removelast_last, length_app. simpl.
  repeat split; lia.
Qed.

(** *** What the sink and the scheduler leave alone *)

Lemma print_fields_frame out (sentences : list sentence) w :
  let '(w', o) := for_each (print_field out) sentences w in
  polls w' = polls w ∧ submitted w' = submitted w ∧
  delivered w' = delivered w ∧ o ≠ Hang.
Proof.
  revert w. induction sentences as [|line sentences IH]; intros w; [done|].
  simpl. unfold bind, print_field. destruct (line !! out) as [s|]; [|done].
  simpl. specialize (IH (World (stdout w +:+ s) (polls w) (submitted w) (delivered w))).
  by destruct (for_each _ sentences _) as [w' o].
Qed.

Lemma write_stream_frame scr out w :
  let '(w', o) := write_stream scr out w in
  polls w' = polls w ∧ submitted w' = submitted w ∧
  delivered w' = delivered w ∧ o ≠ Hang.
Proof.
  unfold write_stream. destruct (scr !! "sentences") as [[|first rest]|]; [done| |done].
  unfold bind at 1, py_assert. case_bool_decide; [|done]. unfold ret at 1.
  unfold bind. pose proof (print_fields_frame out (first :: rest) w) as Hframe.
  destruct (for_each _ (first :: rest) w) as [w' [[]|e|]]; [|done|done].
  simpl. destruct Hframe as (? & ? & ? & _). done.
Qed.

Lemma stream_result_frame f w :
  let '(w', o) := sink f w in
  polls w' = polls w ∧ submitted w' = submitted w ∧ o ≠ Hang.
Proof.
  unfold stream_result, result, bind.
  destruct (translator (ftask f)) as [e|scr]; [done|]. simpl.
  pose proof (write_stream_frame scr (output translit)
    (World (stdout w) (polls w) (submitted w) (delivered w ++ [f]))) as Hframe.
  destruct (write_stream _ _ _) as [w' o].
  destruct Hframe as (? & ? & _ & ?). done.
Qed.

(** The drain loop submits nothing and, with as much fuel as the queue is
    long, comes to an end. *)
Lemma drain_frame fuel queue w :
  (length queue < fuel)%nat →
  let '(w', o) := drainq fuel queue w in
  submitted w' = submitted w ∧ o ≠ Hang.
Proof.
  revert queue w. induction fuel as [|fuel IH]; intros queue w Hfuel; [lia|].
  rewrite drain_S. destruct queue as [|first queue']; [done|].
  set (queue := first :: queue') in *.
  unfold bind at 1, done. destruct (finished (polls w) (fid first)); [|done].
  destruct (pop_last queue) as (f & -> & _ & Hshorter); [done|].
  unfold bind.
  pose proof (stream_result_frame f
    (World (stdout w) (S (polls w)) (submitted w) (delivered w))) as Hframe.
  destruct (sink f _) as [w1 [[]|e|]];
    [|by destruct Hframe as (_ & ? & _)|by destruct Hframe as (_ & _ & ?)].
  specialize (IH (removelast queue) w1).
  destruct (drainq fuel (removelast queue) w1) as [w2 o].
  destruct Hframe as (_ & Hsub & _). simpl in Hsub.
  destruct IH as [IHsub IHo]; [lia|]. split; [congruence|done].
Qed.

Lemma set_task_send_frame queue task w :
  let '(w', o) := sendq queue task w in
  submitted w' = submitted w ++ [task] ∧ o ≠ Hang.
Proof.
  unfold set_task_send, bind, submit.
  apply (drain_frame _ _
    (World (stdout w) (polls w) (submitted w ++ [task]) (delivered w))). lia.
Qed.

Lemma set_task_close_frame queue w :
  let '(w', o) := closeq queue w in
  submitted w' = submitted w ∧ o ≠ Hang.
Proof.
  unfold set_task_close. revert w.
  induction queue as [|f queue IH]; intros w; [done|].
  simpl. unfold bind. pose proof (stream_result_frame f w) as Hframe.
  destruct (sink f w) as [w1 [[]|e|]];
    [|by destruct Hframe as (_ & ? & _)|by destruct Hframe as (_ & _ & ?)].
  specialize (IH w1). destruct (for_each _ queue w1) as [w2 o].
  destruct Hframe as (_ & Hsub & _). destruct IH. split; [congruence|done].
Qed.

Lemma co_send_set_task task queue w :
  co_send sched task (queue, w) =
  match sendq queue task w with
  | (w', Ok queue') => ((queue', w'), Ok tt)
  | (w', Raised e) => ((queue, w'), Raised e)
  | (w', Hang) => ((queue, w'), Hang)
  end.
Proof. reflexivity. Qed.

Lemma co_close_set_task queue w :
  co_close sched (queue, w) = let '(w', o) := closeq queue w in ((queue, w'), o).
Proof. reflexivity. Qed.

(** *** When every job can be delivered *)

Lemma sink_deliverable f w :
  deliverable translator translit f →
  ∃ w', sink f w = (w', Ok tt) ∧ submitted w' = submitted w ∧
        delivered w' = delivered w ++ [f] ∧
        stdout w' = stdout w +:+ rendered translator translit f.
Proof.
  intros (scr & Hscr & sentences & Hsent & Hne & Hall).
  unfold stream_result, result, bind, rendered. rewrite Hscr, Hsent. simpl.
  rewrite (write_stream_prints _ _ _ _ Hsent Hne Hall). simpl. eauto.
Qed.

(** The drain loop removes a run of jobs from the back of the queue and
    passes them to the sink, last one first. *)
Lemma drain_deliverable fuel queue w :
  (length queue < fuel)%nat →
  Forall (deliverable translator translit) queue →
  ∃ kept popped w', drainq fuel queue w = (w', Ok kept) ∧
    queue = kept ++ reverse popped ∧
    delivered w' = delivered w ++ popped ∧
    submitted w' = submitted w ∧
    stdout w' = stdout w +:+ join (rendered translator translit <$> popped).
Proof.
  revert queue w. induction fuel as [|fuel IH]; intros queue w Hfuel Hall; [lia|].
  rewrite drain_S. destruct queue as [|first queue'].
  { exists [], [], w. simpl. by rewrite app_nil_r, app_empty_r. }
  set (queue := first :: queue') in *.
  unfold bind at 1, done. destruct (finished (polls w) (fid first)); last first.
  { eexists queue, [], _. simpl. by rewrite !app_nil_r, app_empty_r. }
  destruct (pop_last queue) as (f & -> & Hqueue & Hshorter); [done|].
  rewrite Hqueue in Hall. apply Forall_app in Hall as [Hall Hf].
  rewrite Forall_singleton in Hf.
  unfold bind.
  destruct (sink_deliverable f
    (World (stdout w) (S (polls w)) (submitted w) (delivered w)) Hf)
    as (w1 & -> & Hsub1 & Hdel1 & Hout1).
  simpl in Hsub1, Hdel1, Hout1.
  destruct (IH (removelast queue) w1)
    as (kept & popped & w2 & -> & Hkept & Hdel2 & Hsub2 & Hout2); [lia|done|].
  exists kept, (f :: popped), w2. split; [done|].
  split; [by rewrite Hqueue, reverse_cons, app_assoc, <- Hkept|].
  split; [by rewrite Hdel2, Hdel1, <- app_assoc|].
  split; [congruence|].
  rewrite Hout2, Hout1, fmap_cons, app_assoc_str. done.
Qed.

(** What [send] keeps: the jobs passed to the sink and the jobs of the
    queue are, together, the jobs submitted. *)
Lemma send_deliverable queue task w :
  Forall (deliverable translator translit) queue →
  deliverable translator translit (Future (S (length (submitted w))) task) →
  delivered w ++ queue ≡ₚ jobs (submitted w) →
  stdout w = join (rendered translator translit <$> delivered w) →
  ∃ queue' w', sendq queue task w = (w', Ok queue') ∧
    Forall (deliverable translator translit) queue' ∧
    submitted w' = submitted w ++ [task] ∧
    delivered w' ++ queue' ≡ₚ jobs (submitted w') ∧
    stdout w' = join (rendered translator translit <$> delivered w').
Proof.
  intros Hall Hnew Hinv Hprinted. unfold set_task_send, bind, submit.
  set (f := Future (S (length (submitted w))) task) in *.
  destruct (drain_deliverable (S (length (queue ++ [f]))) (queue ++ [f])
    (World (stdout w) (polls w) (submitted w ++ [task]) (delivered w)))
    as (kept & popped & w' & -> & Hkept & Hdel & Hsub & Hout); [lia| |].
  { apply Forall_app. split; [done|]. by apply Forall_singleton. }
  exists kept, w'. split; [done|]. simpl in Hdel, Hsub, Hout.
  assert (Hperm : kept ++ popped ≡ₚ queue ++ [f]).
  { rewrite Hkept. by rewrite reverse_Permutation. }
  split.
  { assert (Hall' : Forall (deliverable translator translit) (queue ++ [f])).
    { apply Forall_app. split; [done|]. by apply Forall_singleton. }
    rewrite Hkept in Hall'. by apply Forall_app in Hall' as [? _]. }
  split; [done|].
  split; [|by rewrite Hout, Hdel, Hprinted, fmap_app, join_app].
  rewrite Hsub, Hdel, jobs_snoc, <- Hinv.
  rewrite <- !app_assoc. apply Permutation_app_head.
  rewrite (Permutation_app_comm popped kept). exact Hperm.
Qed.

Lemma close_deliverable queue w :
  Forall (deliverable translator translit) queue →
  ∃ w', closeq queue w = (w', Ok tt) ∧
    submitted w' = submitted w ∧ delivered w' = delivered w ++ queue ∧
    stdout w' = stdout w +:+ join (rendered translator translit <$> queue).
Proof.
  unfold set_task_close. intros Hall. revert w.
  induction Hall as [|f queue Hf _ IH]; intros w.
  { exists w. simpl. by rewrite app_nil_r, app_empty_r. }
  simpl. unfold bind.
  destruct (sink_deliverable f w Hf) as (w1 & -> & Hsub1 & Hdel1 & Hout1).
  destruct (IH w1) as (w2 & -> & Hsub2 & Hdel2 & Hout2).
  exists w2. split; [done|]. split; [congruence|].
  split; [by rewrite Hdel2, Hdel1, <- app_assoc|].
  rewrite Hout2, Hout1, app_assoc_str. done.
Qed.

Lemma sends_deliverable batches queue w :
  Forall (λ task, ∃ scr, translator task = inr scr ∧
                         printable (output translit) scr) batches →
  Forall (deliverable translator translit) queue →
  delivered w ++ queue ≡ₚ jobs (submitted w) →
  stdout w = join (rendered translator translit <$> delivered w) →
  ∃ queue' w', for_each (co_send sched) batches (queue, w) = ((queue', w'), Ok tt) ∧
    Forall (deliverable translator translit) queue' ∧
    submitted w' = submitted w ++ batches ∧
    delivered w' ++ queue' ≡ₚ jobs (submitted w') ∧
    stdout w' = join (rendered translator translit <$> delivered w').
Proof.
  intros Hbatches. revert queue w.
  induction Hbatches as [|task batches Htask _ IH]; intros queue w Hall Hinv Hprinted.
  { exists queue, w. by rewrite app_nil_r. }
  rewrite for_each_cons. unfold bind. rewrite co_send_set_task.
  destruct (send_deliverable queue task w Hall Htask Hinv Hprinted)
    as (queue1 & w1 & -> & Hall1 & Hsub1 & Hinv1 & Hprinted1).
  destruct (IH queue1 w1 Hall1 Hinv1 Hprinted1)
    as (queue2 & w2 & -> & Hall2 & Hsub2 & Hinv2 & Hprinted2).
  exists queue2, w2. split; [done|]. split; [done|]. split; [|done].
  by rewrite Hsub2, Hsub1, <- app_assoc.
Qed.
End set_task_facts.

Lemma echo_printable translit task :
  ∃ scr, echo task = inr scr ∧ printable (output translit) scr.
Proof.
  eexists. split; [reflexivity|].
  exists [ {[ "trans" := task; "translit" := task ]} ].
  split; [reflexivity|]. split; [done|].
  apply Forall_singleton. exists task. by destruct translit.
Qed.

(** C1, at an input that breaks it: two batches are sent; the first job has
    not completed when [done] is first called and has when it is called
    again. The second [send] then finds the head of the queue done and pops
    the tail: the result of job 2 reaches the sink before that of job 1. *)
Theorem schedule_out_of_order :
  schedule echo (finishes_at 1) false ["a"; "b"] world0 =
    (World ("b" +:+ nl +:+ "a" +:+ nl) 3 ["a"; "b"] [Future 2 "b"; Future 1 "a"],
     Ok tt) ∧
  [Future 2 "b"; Future 1 "a"] ≠ jobs ["a"; "b"].
Proof. split; [vm_compute; reflexivity|discriminate]. Qed.

(** C4: when the translator returns, for every batch, a result that the sink
    prints, sending the batches to [set_task] and closing it ends normally;
    the jobs whose results were passed to the sink are then the jobs
    submitted, each one once, as many as the batches; no job of the queue
    is left undelivered; and what has been printed is the text of these
    results, in the order in which they were passed to the sink. *)
Theorem schedule_drains (translator : string → exn + script)
    (finished : nat → nat → bool) (translit : bool) (batches : list string) :
  Forall (λ task, ∃ scr, translator task = inr scr ∧
                         printable (output translit) scr) batches →
  ∃ queue w,
    (for_each (co_send (set_task translator finished translit)) batches ;;
     co_close (set_task translator finished translit)) ([], world0)
      = ((queue, w), Ok tt) ∧
    schedule translator finished translit batches world0 = (w, Ok tt) ∧
    submitted w = batches ∧
    delivered w ≡ₚ jobs batches ∧
    NoDup (delivered w) ∧
    length (delivered w) = length batches ∧
    pending queue w = [] ∧
    stdout w = join (rendered translator translit <$> delivered w).
Proof.
  intros Hbatches.
  destruct (sends_deliverable translator finished translit batches [] world0)
    as (queue & w1 & Hsends & Hall & Hsub1 & Hinv1 & Hprinted1); [done|done|done|done|].
  destruct (close_deliverable translator translit queue w1 Hall)
    as (w2 & Hclose & Hsub2 & Hdel2 & Hout2).
  assert (Hbody :
    (for_each (co_send (set_task translator finished translit)) batches ;;
     co_close (set_task translator finished translit)) ([], world0)
      = ((queue, w2), Ok tt)).
  { unfold bind. rewrite Hsends, co_close_set_task, Hclose. done. }
  assert (Hperm : delivered w2 ≡ₚ jobs batches).
  { rewrite Hdel2, Hinv1, Hsub1. done. }
  exists queue, w2. split; [done|].
  split; [unfold schedule, primed, ret; by rewrite Hbody|].
  split; [by rewrite Hsub2, Hsub1|].
  split; [done|].
  split; [rewrite Hperm; apply jobs_NoDup|].
  split; [by rewrite Hperm, jobs_length|].
  split; [|by rewrite Hout2, Hdel2, Hprinted1, fmap_app, join_app].
  apply pending_delivered, Forall_forall. intros f Hf.
  rewrite Hdel2. apply elem_of_app. by right.
Qed.

Lemma schedule_drains_witness :
  ∃ w, schedule echo (finishes_at 1) false ["a"; "b"] world0 = (w, Ok tt) ∧
       delivered w ≡ₚ jobs ["a"; "b"] ∧
       length (delivered w) = 2%nat.
Proof.
  destruct (schedule_drains echo (finishes_at 1) false ["a"; "b"])
    as (queue & w & _ & Hrun & _ & Hperm & _ & Hlen & _ & _).
  - repeat (apply Forall_cons; split; [apply echo_printable|]). apply Forall_nil_2.
  - exists w. split; [exact Hrun|]. split; [exact Hperm|exact Hlen].
Defined.

(** ** The whole pipeline *)

(** C10: closing [spool] submits one more job, with the text accumulated and
    not yet flushed, whatever happens afterwards; and with no input at all
    the pipeline invokes the translator once, on the empty string, and the
    sink is called once, on the result of that job. *)
Theorem close_submits_final_job (translator : string → exn + script)
    (finished : nat → nat → bool) (translit : bool) (maxlen : Z)
    (st : spool_locals) (queue : list future) (w : world) :
  0 < maxlen →
  (let '(_, (_, w'), o) :=
     co_close (spool (set_task translator finished translit) maxlen) (st, (queue, w)) in
   submitted w' = submitted w ++ [text st] ∧ o ≠ Hang) ∧
  pipeline translator finished translit maxlen [] world0 =
    match translator "" with
    | inl e => (World "" 1 [""] [], Raised e)
    | inr scr => write_stream scr (output translit) (World "" 1 [""] [Future 1 ""])
    end ∧
  submitted (pipeline translator finished translit maxlen [] world0).1 = [""].
Proof.
  intros Hpos.
  assert (Hclose : ∀ st queue w,
    let '(_, (_, w'), o) :=
      co_close (spool (set_task translator finished translit) maxlen) (st, (queue, w)) in
    submitted w' = submitted w ++ [text st] ∧ o ≠ Hang).
  { clear. intros st queue w. unfold spool. simpl co_close. unfold finish, spool_close, bind.
    rewrite co_send_set_task.
    pose proof (set_task_send_frame translator finished translit queue (text st) w) as Hsend.
    destruct (set_task_send _ _ _ queue (text st) w) as [w1 [queue1|e|]];
      [|by split; [apply Hsend|]|by destruct Hsend].
    rewrite co_close_set_task.
    pose proof (set_task_close_frame translator translit queue1 w1) as Hfin.
    destruct (set_task_close _ _ queue1 w1) as [w2 o].
    destruct Hsend as [Hsub1 _], Hfin as [Hsub2 Ho]. split; [congruence|done]. }
  split; [apply Hclose|].
  set (f := Future 1 ""). set (w1 := World "" 1 [""] []).
  assert (Hsink : stream_result translator translit f w1 =
                  match translator "" with
                  | inl e => (w1, Raised e)
                  | inr scr => write_stream scr (output translit) (World "" 1 [""] [f])
                  end).
  { unfold stream_result, result, bind. simpl. by destruct (translator ""). }
  assert (Hrun : pipeline translator finished translit maxlen [] world0 =
                 stream_result translator translit f w1).
  { unfold pipeline, primed, source, spool_rewind. rewrite decide_True by done.
    unfold spool, set_task, spool_close, set_task_send, set_task_close, resume, finish,
      submit. cbn -[drain stream_result].
    unfold bind at 1. cbn -[drain stream_result].
    rewrite drain_S. unfold bind at 1, done.
    cbn -[drain stream_result]. fold f w1.
    destruct (finished 0%nat 1%nat).
    - unfold bind.
      destruct (stream_result translator translit f w1) as [w' [[]|e|]]; reflexivity.
    - cbn -[stream_result]. unfold bind. fold f w1.
      destruct (stream_result translator translit f w1) as [w' [[]|e|]]; reflexivity. }
  rewrite Hrun, Hsink. split; [done|].
  destruct (translator "") as [e|scr]; [done|].
  pose proof (write_stream_frame scr (output translit) (World "" 1 [""] [f])) as Hframe.
  destruct (write_stream _ _ _) as [w' o]. apply Hframe.
Qed.

Lemma close_submits_final_job_witness :
  pipeline echo (finishes_at 1) false 1200 [] world0 =
    (World nl 1 [""] [Future 1 ""], Ok tt) ∧
  submitted (co_close (spool (set_task echo (finishes_at 1) false) 1200)
               (SpoolLocals 3 "abc", ([], world0))).1.2.2 = ["abc"].
Proof.
  destruct (close_submits_final_job echo (finishes_at 1) false 1200
              (SpoolLocals 3 "abc") [] world0) as (Hclose & Hrun & _); [lia|].
  split.
  - rewrite Hrun. vm_compute. reflexivity.
  - destruct (co_close _ _) as [[st' [queue' w']] o]. apply Hclose.
Defined.

(** * Further properties of the code *)

(** ** The monad, pointwise *)

Lemma for_each_app {W A} (body : A → M W unit) l1 l2 w :
  for_each body (l1 ++ l2) w = (for_each body l1 ;; for_each body l2) w.
Proof.
  revert w. induction l1 as [|x l1 IH]; intros w; [done|].
  rewrite <- app_comm_cons, !for_each_cons. unfold bind.
  destruct (body x w) as [w1 [[]|e|]]; [|done|done].
  rewrite IH. reflexivity.
Qed.

Lemma join_pair a b : join [a; b] = a +:+ b.
Proof. unfold join. simpl. by rewrite app_empty_r. Qed.

Lemma with_space_bound words :
  Forall (λ word, len word ≤ 500)%nat words →
  Forall (λ f, len f ≤ 501)%nat (with_space words).
Proof.
  unfold with_space. intros Hwords. apply Forall_fmap.
  eapply Forall_impl; [exact Hwords|]. intros word Hle. simpl in *.
  rewrite len_app. simpl. lia.
Qed.

(** ** [source], against any target *)

(** The loop over one line, in full: the fragments it sends are the leading
    pieces of the line, each with its space; it sends them to whatever target
    it is given; it stops when at most 500 characters remain, or with an
    [AssertionError] at a piece of more than 500. *)
Lemma source_while_shape fuel line :
  (len line < fuel)%nat →
  ∃ words (o : outcome string),
    (∀ tr, source_while recorder fuel line tr = (tr ++ with_space words, o)) ∧
    (∀ W (target : coroutine W) w,
       source_while target fuel line w =
       (for_each (co_send target) (with_space words) ;; conclude o) w) ∧
    Forall (λ word, len word ≤ 500)%nat words ∧
    match o with
    | Ok last =>
        (len last ≤ 500)%nat ∧
        str_split " " line = words ++ str_split " " last ∧
        join (with_space words) +:+ last = line
    | Raised e =>
        e = "AssertionError" ∧
        (∃ long rest, (500 < len long)%nat ∧
                      str_split " " line = words ++ long :: rest) ∧
        (∃ tail, join (with_space words) +:+ tail = line)
    | Hang => False
    end.
Proof.
  revert line. induction fuel as [|fuel IH]; intros line Hfuel; [lia|].
  case (decide (500 < len line)%nat) as [Hlong|Hshort]; last first.
  { exists [], (Ok line). split; [|split; [|split; [done|]]].
    - intros tr. rewrite source_while_S, decide_False by done. by rewrite app_nil_r.
    - intros W target w. by rewrite source_while_S, decide_False by done.
    - split; [lia|done]. }
  destruct (partition " " line) as [[init sep] rest] eqn:Hp.
  destruct (partition_spec _ _ _ _ _ Hp) as [Happ _].
  destruct (partition_split _ _ _ _ _ Hp) as [[-> Hsplit]|(-> & -> & -> & Hsplit)];
    last first.
  { exists [], (Raised "AssertionError"). split; [|split; [|split; [done|]]].
    - intros tr. rewrite source_while_S, decide_True, Hp by done.
      unfold bind, py_assert. rewrite bool_decide_false by lia. by rewrite app_nil_r.
    - intros W target w. rewrite source_while_S, decide_True, Hp by done.
      unfold bind, py_assert. by rewrite bool_decide_false by lia.
    - split; [done|]. split; [by exists line, []; rewrite Hsplit|by exists line]. }
  case (decide (len init ≤ 500)%nat) as [Hinit|Hinit]; last first.
  { exists [], (Raised "AssertionError"). split; [|split; [|split; [done|]]].
    - intros tr. rewrite source_while_S, decide_True, Hp by done.
      unfold bind, py_assert. rewrite bool_decide_false by done. by rewrite app_nil_r.
    - intros W target w. rewrite source_while_S, decide_True, Hp by done.
      unfold bind, py_assert. by rewrite bool_decide_false by done.
    - split; [done|].
      split; [exists init, (str_split " " rest); split; [lia|done]|by exists line]. }
  assert (Hlen : len line = (len init + 1 + len rest)%nat).
  { rewrite <- Happ, !len_app. simpl. lia. }
  destruct (IH rest) as (words & o & Hrec & Htarget & Hwords & Ho); [lia|].
  exists (init :: words), o. split; [|split; [|split]].
  - intros tr. rewrite source_while_S, decide_True, Hp by done.
    unfold bind at 1, py_assert. rewrite bool_decide_true by done.
    unfold ret at 1. unfold bind at 1. unfold recorder at 1, co_send at 1.
    rewrite Hrec, join_pair, <- app_assoc. done.
  - intros W target w. rewrite source_while_S, decide_True, Hp by done.
    unfold bind at 1, py_assert. rewrite bool_decide_true by done.
    unfold ret at 1. unfold with_space. rewrite fmap_cons, for_each_cons, join_pair.
    unfold bind.
    destruct (co_send target (init +:+ " ") w) as [w1 [[]|e|]]; [|done|done].
    rewrite Htarget. reflexivity.
  - by constructor.
  - assert (Hjoin : ∀ tail, join (with_space (init :: words)) +:+ tail =
                            init +:+ " " +:+ join (with_space words) +:+ tail).
    { intros tail. unfold with_space. rewrite fmap_cons.
      change (join (?x :: ?l)) with (x +:+ join l). by rewrite !app_assoc_str. }
    destruct o as [last|e|]; [| |done].
    + destruct Ho as (Hlast & Hpieces & Hline). split; [done|].
      split; [by rewrite Hsplit, Hpieces|]. by rewrite Hjoin, Hline.
    + destruct Ho as (-> & (long & more & Hlongp & Hpieces) & (tail & Hline)).
      split; [done|]. split.
      * exists long, more. split; [done|]. by rewrite Hsplit, Hpieces.
      * exists tail. by rewrite Hjoin, Hline.
Qed.

Lemma str_split_bound c s :
  Forall (λ piece, len piece ≤ len s)%nat (str_split c s).
Proof.
  induction s as [|a s IH]; simpl; [by apply Forall_singleton|].
  assert (Hweak : Forall (λ piece, len piece ≤ S (len s))%nat (str_split c s)).
  { eapply Forall_impl; [exact IH|]. intros piece Hle. simpl in *. lia. }
  case_decide.
  - constructor; [simpl; lia|done].
  - destruct (str_split c s) as [|piece pieces]; [apply Forall_singleton; simpl; lia|].
    apply Forall_cons in IH as [Hpiece _]. apply Forall_cons in Hweak as [_ Hpieces].
    constructor; [simpl; lia|done].
Qed.

(** One line of input, in full. *)
Lemma source_line_shape line :
  ∃ frs (o : outcome unit),
    (∀ tr, source_line recorder line tr = (tr ++ frs, o)) ∧
    (∀ W (target : coroutine W) w,
       source_line target line w = (for_each (co_send target) frs ;; conclude o) w) ∧
    (∃ tail, join frs +:+ tail = line ∧ (o = Ok tt → tail = "")) ∧
    (o = Ok tt ∧ short_pieces line ∨
     o = Raised "AssertionError" ∧ ¬ short_pieces line).
Proof.
  destruct (source_while_shape (S (len line)) line)
    as (words & o & Hrec & Htarget & Hwords & Ho); [lia|].
  destruct o as [last|e|]; [| |done].
  - destruct Ho as (Hlast & Hpieces & Hline).
    exists (with_space words ++ [last]), (Ok tt). split; [|split; [|split]].
    + intros tr. unfold source_line, bind. rewrite Hrec. simpl. by rewrite app_assoc.
    + intros W target w. unfold source_line. unfold bind at 1. rewrite Htarget.
      unfold bind. rewrite for_each_app. unfold bind.
      destruct (for_each (co_send target) (with_space words) w) as [w1 [[]|e|]];
        [|done|done].
      simpl. unfold bind. by destruct (co_send target last w1) as [w2 [[]|e|]].
    + exists "". split; [|done]. by rewrite app_empty_r, join_app, join_singleton.
    + left. split; [done|]. unfold short_pieces. rewrite Hpieces.
      apply Forall_app. split; [done|].
      eapply Forall_impl; [apply str_split_bound|]. intros piece Hle. simpl in *. lia.
  - destruct Ho as (-> & (long & more & Hlong & Hpieces) & (tail & Hline)).
    exists (with_space words), (Raised "AssertionError"). split; [|split; [|split]].
    + intros tr. unfold source_line, bind. by rewrite Hrec.
    + intros W target w. unfold source_line. unfold bind at 1. rewrite Htarget.
      unfold bind. by destruct (for_each _ _ w) as [w1 [[]|e|]].
    + exists tail. by split.
    + right. split; [done|]. unfold short_pieces. rewrite Hpieces.
      intros Hall. apply Forall_app in Hall as [_ Hall].
      apply Forall_cons in Hall as [Hle _]. lia.
Qed.

(** The whole input, in full. *)
Lemma source_for_shape stdin :
  ∃ frs (o : outcome unit),
    (∀ tr, for_each (source_line recorder) stdin tr = (tr ++ frs, o)) ∧
    (∀ W (target : coroutine W) w,
       for_each (source_line target) stdin w =
       (for_each (co_send target) frs ;; conclude o) w) ∧
    (∃ tail, join frs +:+ tail = join stdin ∧ (o = Ok tt → tail = "")) ∧
    (o = Ok tt ∧ Forall short_pieces stdin ∨
     o = Raised "AssertionError" ∧ ¬ Forall short_pieces stdin).
Proof.
  induction stdin as [|line stdin IH].
  { exists [], (Ok tt). split; [|split; [|split]].
    - intros tr. by rewrite app_nil_r.
    - done.
    - by exists "".
    - by left. }
  destruct (source_line_shape line)
    as (frs1 & o1 & Hrec1 & Htarget1 & (tail1 & Hjoin1 & Htail1) & Ho1).
  destruct Ho1 as [[-> Hshort]|[-> Hlong]].
  - destruct IH as (frs2 & o2 & Hrec2 & Htarget2 & (tail2 & Hjoin2 & Htail2) & Ho2).
    rewrite (Htail1 eq_refl), app_empty_r in Hjoin1.
    exists (frs1 ++ frs2), o2. split; [|split; [|split]].
    + intros tr. rewrite for_each_cons. unfold bind. rewrite Hrec1, Hrec2.
      by rewrite app_assoc.
    + intros W target w. rewrite for_each_cons. unfold bind at 1. rewrite Htarget1.
      unfold bind. rewrite for_each_app. unfold bind.
      destruct (for_each (co_send target) frs1 w) as [w1 [[]|e|]]; [|done|done].
      simpl. rewrite Htarget2. reflexivity.
    + exists tail2. split; [|done].
      change (join (line :: stdin)) with (line +:+ join stdin).
      by rewrite join_app, app_assoc_str, Hjoin2, Hjoin1.
    + destruct Ho2 as [[-> Hall]|[-> Hnot]]; [left|right]; (split; [done|]).
      * by constructor.
      * intros Hall. apply Forall_cons in Hall as [_ Hall]. done.
  - exists frs1, (Raised "AssertionError"). split; [|split; [|split]].
    + intros tr. rewrite for_each_cons. unfold bind. by rewrite Hrec1.
    + intros W target w. rewrite for_each_cons. unfold bind at 1. rewrite Htarget1.
      unfold bind. by destruct (for_each (co_send target) frs1 w) as [w1 [[]|e|]].
    + exists (tail1 +:+ join stdin). split; [|done].
      change (join (line :: stdin)) with (line +:+ join stdin).
      by rewrite <- app_assoc_str, Hjoin1.
    + right. split; [done|]. intros Hall. apply Forall_cons in Hall as [Hline _]. done.
Qed.

Lemma forwarded_shape stdin :
  ∃ frs (o : outcome unit),
    forwarded stdin = (frs, o) ∧
    (∀ W (target : coroutine W) w,
       source target stdin w = (for_each (co_send target) frs ;; source_end target o) w) ∧
    (∃ tail, join frs +:+ tail = join stdin ∧ (o = Ok tt → tail = "")) ∧
    (o = Ok tt ∧ Forall short_pieces stdin ∨
     o = Raised "AssertionError" ∧ ¬ Forall short_pieces stdin).
Proof.
  destruct (source_for_shape stdin) as (frs & o & Hrec & Htarget & Htail & Ho).
  exists frs, o. split; [|split; [|split; [done|done]]].
  - rewrite forwarded_for, Hrec. simpl. by destruct Ho as [[-> _]|[-> _]].
  - intros W target w. unfold source. unfold bind at 1. rewrite Htarget. unfold bind.
    destruct (for_each (co_send target) frs w) as [w1 [[]|e|]]; [|done|done].
    by destruct Ho as [[-> _]|[-> _]].
Qed.

(** X1: against any target, [source] does what its fragments say: it sends
    the fragments that the recorder receives, in that order, until a [send]
    raises; then, if no assertion failed, it calls [close], once; if one
    failed, it raises [AssertionError] and leaves the target not closed. *)
Theorem source_feeds_target {W} (target : coroutine W) (stdin : list string) (w : W) :
  source target stdin w =
  (for_each (co_send target) (forwarded stdin).1 ;;
   source_end target (forwarded stdin).2) w.
Proof.
  destruct (forwarded_shape stdin) as (frs & o & -> & Htarget & _).
  apply Htarget.
Qed.

(** X2: lines of at most 500 characters are forwarded as they are, one
    fragment for each line, and [source] runs to its end. *)
Theorem source_short_lines (stdin : list string) :
  Forall (λ line, len line ≤ 500)%nat stdin →
  forwarded stdin = (stdin, Ok tt).
Proof.
  intros Hshort. rewrite forwarded_for.
  enough (Hfor : ∀ tr, for_each (source_line recorder) stdin tr = (tr ++ stdin, Ok tt))
    by (by rewrite Hfor).
  induction Hshort as [|line stdin Hline _ IH]; intros tr; [by rewrite app_nil_r|].
  rewrite for_each_cons. unfold bind at 1. unfold source_line.
  rewrite source_while_S, decide_False by lia.
  unfold bind, ret. simpl. rewrite IH, <- app_assoc. done.
Qed.

Lemma source_short_lines_witness :
  forwarded ["hello world" +:+ nl; ""; replicate_char 500 " "] =
  (["hello world" +:+ nl; ""; replicate_char 500 " "], Ok tt).
Proof.
  apply (source_short_lines ["hello world" +:+ nl; ""; replicate_char 500 " "]).
  apply (bool_decide_unpack _). vm_compute. exact I.
Defined.

(** X3: [source] runs to its end exactly when no line has a piece between
    spaces longer than 500 characters; otherwise it raises [AssertionError].
    It ends in no other way. *)
Theorem source_outcome (stdin : list string) :
  (forwarded stdin).2 =
  if decide (Forall short_pieces stdin) then Ok tt else Raised "AssertionError".
Proof.
  destruct (forwarded_shape stdin) as (frs & o & -> & _ & _ & Ho). simpl.
  destruct Ho as [[-> Hall]|[-> Hnot]].
  - by rewrite decide_True.
  - by rewrite decide_False.
Qed.

(** X4: whatever the input, and also when the assertion fails, the fragments
    forwarded so far, concatenated in order, are the beginning of the input:
    [source] forwards no character that is not in the input, and none out of
    its place. *)
Theorem source_forwards_prefix (stdin : list string) :
  ∃ tail, join (forwarded stdin).1 +:+ tail = join stdin.
Proof.
  destruct (forwarded_shape stdin) as (frs & o & -> & _ & (tail & Hjoin & _) & _).
  by exists tail.
Qed.

(** X5: a line is cut word by word from its left: the fragments split off
    are the leading pieces of [line.split(' ')], each of at most 500
    characters and followed by its space. The cutting stops with a last
    fragment of at most 500 characters, the rest of the line, or with
    [AssertionError] at the first piece of more than 500 characters that is
    reached. *)
Theorem source_word_by_word (line : string) :
  ∃ words, Forall (λ word, len word ≤ 500)%nat words ∧
    ((∃ last, (len last ≤ 500)%nat ∧
              str_split " " line = words ++ str_split " " last ∧
              forwarded [line] = (with_space words ++ [last], Ok tt)) ∨
     (∃ long rest, (500 < len long)%nat ∧
                   str_split " " line = words ++ long :: rest ∧
                   forwarded [line] = (with_space words, Raised "AssertionError"))).
Proof.
  destruct (source_while_shape (S (len line)) line)
    as (words & o & Hrec & _ & Hwords & Ho); [lia|].
  exists words. split; [done|].
  unfold forwarded, source. rewrite for_each_cons. simpl for_each.
  unfold source_line, bind. rewrite Hrec. simpl.
  destruct o as [last|e|]; [| |done].
  - destruct Ho as (Hlast & Hpieces & _). left. by exists last.
  - destruct Ho as (-> & (long & more & Hlong & Hpieces) & _). right. by exists long, more.
Qed.

(** ** [accumulator] *)

(** X6: over any sequence of strings, [reduce] with [accumulator] started
    from an [int] adds up the lengths of the strings, and started from a
    [str] appends them in order: the count grows by exactly the number of
    characters by which the text grows. *)
Theorem accumulator_agrees (items : list string) (n : Z) (s : string) :
  reduce accumulator items (PyInt n) = PyInt (n + Z.of_nat (len (join items))) ∧
  reduce accumulator items (PyStr s) = PyStr (s +:+ join items).
Proof.
  unfold reduce. revert n s. induction items as [|item items IH]; intros n s.
  { simpl. rewrite app_empty_r. split; [f_equal; lia|done]. }
  change (join (item :: items)) with (item +:+ join items).
  simpl. destruct (IH (n + Z.of_nat (len item)) (s +:+ item)) as [-> ->].
  rewrite len_app, app_assoc_str. split; [f_equal; lia|done].
Qed.

(** ** [spool] *)

(** X7: at every [yield] of [spool], whatever it sends its batches to, the
    running count is the number of characters of the running text, and it
    is at least zero and below the threshold. *)
Theorem spool_count_is_length {W} (iterable : coroutine W) (maxlen : Z)
    (st : spool_locals) :
  spool_reaches iterable maxlen st →
  words st = Z.of_nat (len (text st)) ∧ 0 ≤ words st < maxlen.
Proof.
  assert (Hrewind : ∀ w w' st', spool_rewind (W:=W) maxlen w = (w', Ok st') →
            words st' = Z.of_nat (len (text st')) ∧ 0 ≤ words st' < maxlen).
  { intros w w' st'. unfold spool_rewind. case_decide; [|done].
    intros [= _ <-]. simpl. lia. }
  induction 1 as [w w' st Hfirst|st stream w w' st' _ IH Hsend]; [by eapply Hrewind|].
  unfold spool_send in Hsend. rewrite spool_merge_eq in Hsend. simpl in Hsend.
  case_decide as Hlt.
  - injection Hsend as _ <-. simpl. rewrite len_app. lia.
  - unfold bind in Hsend.
    destruct (co_send iterable _ w) as [w1 [[]|e|]]; [|done|done].
    by eapply Hrewind.
Qed.

Lemma spool_count_is_length_witness :
  2 = Z.of_nat (len "ab") ∧ 0 ≤ 2 < 5.
Proof.
  apply (spool_count_is_length recorder 5 (SpoolLocals 2 "ab")).
  apply (reaches_next recorder 5 (SpoolLocals 0 "") "ab" [] []).
  - by apply (reaches_first recorder 5 [] []).
  - reflexivity.
Defined.

(** What a [send] to [spool] over the recorder does. *)
Lemma spool_send_recorder maxlen st stream tr :
  0 < maxlen →
  co_send (spool recorder maxlen) stream (st, tr) =
  if decide (words st + Z.of_nat (len stream) < maxlen)
  then ((SpoolLocals (words st + Z.of_nat (len stream)) (text st +:+ stream), tr), Ok tt)
  else ((SpoolLocals 0 "", tr ++ [text st +:+ stream]), Ok tt).
Proof.
  intros Hpos. unfold spool. simpl co_send. unfold resume, spool_send.
  rewrite spool_merge_eq. simpl. case_decide; [done|].
  unfold bind, spool_rewind. simpl. by rewrite decide_True.
Qed.

(** The fragments sent to [spool], one after the other: the batches handed
    on, followed by the text kept, are the text kept before followed by the
    fragments. *)
Lemma spool_sends_recorder maxlen frs st tr :
  0 < maxlen →
  words st = Z.of_nat (len (text st)) →
  words st < maxlen →
  ∃ batches st',
    for_each (co_send (spool recorder maxlen)) frs (st, tr) =
      ((st', tr ++ batches), Ok tt) ∧
    join batches +:+ text st' = text st +:+ join frs ∧
    Forall (λ b, maxlen ≤ Z.of_nat (len b)) batches ∧
    (∀ k, Forall (λ f, len f ≤ k)%nat frs →
          Forall (λ b, Z.of_nat (len b) < maxlen + Z.of_nat k) batches) ∧
    words st' = Z.of_nat (len (text st')) ∧
    words st' < maxlen.
Proof.
  intros Hpos. revert st tr. induction frs as [|frag frs IH]; intros st tr Hcount Hbelow.
  { exists [], st. rewrite app_nil_r, app_empty_r. simpl. by repeat split. }
  rewrite for_each_cons. unfold bind. rewrite spool_send_recorder by done.
  change (join (frag :: frs)) with (frag +:+ join frs).
  case_decide as Hlt.
  - destruct (IH (SpoolLocals (words st + Z.of_nat (len frag)) (text st +:+ frag)) tr)
      as (batches & st' & -> & Hjoin & Hge & Hlt' & Hcount' & Hbelow').
    { simpl. rewrite len_app. lia. }
    { done. }
    exists batches, st'. split; [done|]. simpl in Hjoin.
    split; [by rewrite Hjoin, app_assoc_str|]. split; [done|].
    split; [|done]. intros k Hk. apply Forall_cons in Hk as [_ Hk]. by apply Hlt'.
  - destruct (IH (SpoolLocals 0 "") (tr ++ [text st +:+ frag]))
      as (batches & st' & -> & Hjoin & Hge & Hlt' & Hcount' & Hbelow'); [done|done|].
    exists ((text st +:+ frag) :: batches), st'. rewrite <- app_assoc.
    split; [done|]. simpl in Hjoin.
    split.
    { change (join (?x :: ?l)) with (x +:+ join l).
      by rewrite !app_assoc_str, Hjoin. }
    split; [constructor; [rewrite len_app; lia|done]|].
    split; [|done]. intros k Hk. apply Forall_cons in Hk as [Hfrag Hk].
    constructor; [rewrite len_app; lia|by apply Hlt'].
Qed.

(** A whole session of [spool] over the recorder. *)
Lemma spool_session_shape maxlen frs :
  0 < maxlen →
  ∃ batches last,
    spool_session maxlen frs = (batches ++ [last], Ok tt) ∧
    join (batches ++ [last]) = join frs ∧
    Forall (λ b, maxlen ≤ Z.of_nat (len b)) batches ∧
    (∀ k, Forall (λ f, len f ≤ k)%nat frs →
          Forall (λ b, Z.of_nat (len b) < maxlen + Z.of_nat k) batches) ∧
    Z.of_nat (len last) < maxlen.
Proof.
  intros Hpos.
  destruct (spool_sends_recorder maxlen frs (SpoolLocals 0 "") [] Hpos)
    as (batches & st' & Hsends & Hjoin & Hge & Hlt & Hcount & Hbelow); [done|done|].
  exists batches, (text st'). split; [|split; [|split; [done|split; [done|lia]]]].
  - unfold spool_session, primed, spool_rewind. rewrite decide_True by done.
    unfold ret at 1. unfold bind. rewrite Hsends. reflexivity.
  - by rewrite join_app, join_singleton, Hjoin.
Qed.

(** X8: [spool] loses and repeats nothing. Sent any fragments and then
    closed, it hands downstream batches that, concatenated in order, are the
    fragments concatenated in order. Every batch but the last has reached
    the threshold in characters; the last one, sent by [close], is always
    sent, and is below the threshold. *)
Theorem spool_no_loss (maxlen : Z) (fragments : list string) :
  0 < maxlen →
  ∃ batches last,
    spool_session maxlen fragments = (batches ++ [last], Ok tt) ∧
    join (batches ++ [last]) = join fragments ∧
    Forall (λ b, maxlen ≤ Z.of_nat (len b)) batches ∧
    Z.of_nat (len last) < maxlen.
Proof.
  intros Hpos.
  destruct (spool_session_shape maxlen fragments Hpos)
    as (batches & last & Hrun & Hjoin & Hge & _ & Hlast).
  by exists batches, last.
Qed.

Lemma spool_no_loss_witness :
  ∃ batches last,
    spool_session 5 ["ab"; "hello"; "x"; ""; "yz"] = (batches ++ [last], Ok tt) ∧
    join (batches ++ [last]) = join ["ab"; "hello"; "x"; ""; "yz"] ∧
    Forall (λ b, 5 ≤ Z.of_nat (len b)) batches ∧
    Z.of_nat (len last) < 5.
Proof. apply (spool_no_loss 5 ["ab"; "hello"; "x"; ""; "yz"]). lia. Defined.

(** X9: a batch is never longer than the threshold allows by more than its
    last fragment: when every fragment has at most [k] characters, every
    batch handed downstream has fewer than [maxlen + k] characters. *)
Theorem spool_batch_bound (maxlen : Z) (k : nat) (fragments : list string) :
  0 < maxlen →
  Forall (λ f, len f ≤ k)%nat fragments →
  Forall (λ b, Z.of_nat (len b) < maxlen + Z.of_nat k) (spool_session maxlen fragments).1.
Proof.
  intros Hpos Hk.
  destruct (spool_session_shape maxlen fragments Hpos)
    as (batches & last & -> & _ & _ & Hlt & Hlast).
  simpl. apply Forall_app. split; [by apply Hlt|].
  apply Forall_singleton. lia.
Qed.

Lemma spool_batch_bound_witness :
  Forall (λ b, Z.of_nat (len b) < 5 + Z.of_nat 5)
    (spool_session 5 ["ab"; "hello"; "x"; ""; "yz"]).1.
Proof.
  apply (spool_batch_bound 5 5 ["ab"; "hello"; "x"; ""; "yz"]); [lia|].
  apply (bool_decide_unpack _). vm_compute. exact I.
Defined.

(** ** [write_stream] *)

(** The loop over the segments, in full: it writes the field of every
    segment up to the first one that lacks it, where it raises [KeyError]. *)
Lemma print_fields_shape output (sentences : list sentence) w :
  (Forall (λ line : sentence, is_Some (line !! output)) sentences ∧
   for_each (print_field output) sentences w =
   (World (stdout w +:+ join (fields output sentences)) (polls w) (submitted w)
      (delivered w), Ok tt)) ∨
  (∃ pre bad post,
     sentences = pre ++ bad :: post ∧
     Forall (λ line : sentence, is_Some (line !! output)) pre ∧
     bad !! output = None ∧
     for_each (print_field output) sentences w =
     (World (stdout w +:+ join (fields output pre)) (polls w) (submitted w)
        (delivered w), Raised "KeyError")).
Proof.
  revert w. induction sentences as [|line sentences IH]; intros w.
  { left. split; [done|]. simpl. unfold ret. rewrite app_empty_r. by destruct w. }
  destruct (line !! output) as [s|] eqn:Hline; last first.
  { right. exists [], line, sentences. split; [done|]. split; [done|]. split; [done|].
    rewrite for_each_cons. unfold bind, print_field. rewrite Hline.
    simpl. rewrite app_empty_r. by destruct w. }
  assert (Hstep : ∀ l : list sentence,
            stdout w +:+ join (fields output (line :: l)) =
            (stdout w +:+ s) +:+ join (fields output l)).
  { intros l. unfold fields. simpl. rewrite Hline. simpl.
    change (join (s :: ?l)) with (s +:+ join l). by rewrite app_assoc_str. }
  assert (Hhead : print_field output line w =
            (World (stdout w +:+ s) (polls w) (submitted w) (delivered w), Ok tt)).
  { unfold print_field. by rewrite Hline. }
  destruct (IH (World (stdout w +:+ s) (polls w) (submitted w) (delivered w)))
    as [[Hall Hrun]|(pre & bad & post & -> & Hpre & Hbad & Hrun)]; simpl in Hrun.
  - left. split; [by constructor|].
    rewrite for_each_cons. unfold bind. rewrite Hhead, Hrun. by rewrite Hstep.
  - right. exists (line :: pre), bad, post. split; [done|].
    split; [by constructor|]. split; [done|].
    rewrite for_each_cons. unfold bind. rewrite Hhead, Hrun. by rewrite Hstep.
Qed.

(** X10: [write_stream] returns normally exactly for the results it can print
    in full: those that have the key ['sentences'], at least one segment,
    and the selected field in every segment. *)
Theorem write_stream_ok_iff (scr : script) (output : string) (w : world) :
  (write_stream scr output w).2 = Ok tt ↔ printable output scr.
Proof.
  split; last first.
  { intros (sentences & Hscr & Hne & Hall).
    by rewrite (write_stream_prints _ _ _ _ Hscr Hne Hall). }
  unfold write_stream, printable.
  destruct (scr !! "sentences") as [[|first rest]|]; [done| |done].
  unfold bind at 1, py_assert. case_bool_decide; [|done]. unfold ret at 1.
  unfold bind.
  destruct (print_fields_shape output (first :: rest) w)
    as [[Hall ->]|(pre & bad & post & _ & _ & _ & ->)]; [|done].
  intros _. by exists (first :: rest).
Qed.

(** X11: when the first segment has the selected field and a later one lacks
    it, [write_stream] writes the field of every segment before that one,
    writes no newline, and raises [KeyError]. *)
Theorem write_stream_partial (scr : script) (pre post : list sentence)
    (bad : sentence) (output : string) (w : world) :
  scr !! "sentences" = Some (pre ++ bad :: post) →
  pre ≠ [] →
  Forall (λ line : sentence, is_Some (line !! output)) pre →
  bad !! output = None →
  write_stream scr output w =
  (World (stdout w +:+ join (fields output pre)) (polls w) (submitted w)
     (delivered w), Raised "KeyError").
Proof.
  intros Hscr Hne Hpre Hbad. unfold write_stream. rewrite Hscr.
  destruct pre as [|first pre]; [done|]. rewrite <- app_comm_cons.
  unfold bind at 1, py_assert.
  rewrite bool_decide_true by (by inversion Hpre). unfold ret at 1.
  unfold bind. rewrite app_comm_cons.
  destruct (print_fields_shape output ((first :: pre) ++ bad :: post) w)
    as [[Hall _]|(pre' & bad' & post' & Heq & Hpre' & Hbad' & ->)].
  { apply Forall_app in Hall as [_ Hall]. apply Forall_cons in Hall as [[s Hs] _].
    congruence. }
  enough (pre' = first :: pre) as -> by done.
  clear -Heq Hpre Hbad Hpre' Hbad'.
  revert pre' Heq Hpre'. generalize (first :: pre) Hpre. clear first pre Hpre.
  induction 1 as [|x l [s Hx] _ IH]; intros pre' Heq Hpre'.
  - destruct Hpre' as [|y pre' [t Hy] _]; [done|]. simplify_eq/=; congruence.
  - destruct Hpre' as [|y pre' Hy Hpre']; simplify_eq/=.
    f_equal. by apply IH.
Qed.

Lemma write_stream_partial_witness :
  write_stream
    {[ "sentences" := [ {[ "trans" := "one " ]}; {[ "trans" := "two" ]};
                        {[ "translit" := "x" ]}; {[ "trans" := "four" ]} ] ]}
    "trans" (World "before " 0 [] []) =
  (World ("before " +:+ join (fields "trans" [ {[ "trans" := "one " ]};
                                                {[ "trans" := "two" ]} ]))
     0 [] [], Raised "KeyError").
Proof.
  apply (write_stream_partial _ [ {[ "trans" := "one " ]}; {[ "trans" := "two" ]} ]
           [ {[ "trans" := "four" ]} ] {[ "translit" := "x" ]} "trans"
           (World "before " 0 [] [])).
  - reflexivity.
  - discriminate.
  - apply (bool_decide_unpack _). vm_compute. exact I.
  - reflexivity.
Defined.

(** X12: [write_stream] raises nothing but [TypeError] (no ['sentences']),
    [IndexError] (no segment), [AssertionError] (first segment without the
    field) and [KeyError] (a later segment without it), and only with
    [KeyError] has it written anything when it raises. *)
Theorem write_stream_failures (scr : script) (output : string) (w w' : world)
    (e : exn) :
  write_stream scr output w = (w', Raised e) →
  e ∈ ["TypeError"; "IndexError"; "AssertionError"; "KeyError"] ∧
  (e ≠ "KeyError" → w' = w).
Proof.
  unfold write_stream.
  destruct (scr !! "sentences") as [[|first rest]|].
  - intros [= <- <-]. split; [set_solver|done].
  - unfold bind at 1, py_assert. case_bool_decide; last first.
    { intros [= <- <-]. split; [set_solver|done]. }
    unfold ret at 1. unfold bind.
    destruct (print_fields_shape output (first :: rest) w)
      as [[_ ->]|(pre & bad & post & _ & _ & _ & ->)]; [done|].
    intros [= <- <-]. split; [set_solver|done].
  - intros [= <- <-]. split; [set_solver|done].
Qed.

Lemma write_stream_failures_witness :
  "IndexError" ∈ ["TypeError"; "IndexError"; "AssertionError"; "KeyError"] ∧
  ("IndexError" ≠ "KeyError" → World "before" 2 ["t"] [] = World "before" 2 ["t"] []).
Proof.
  apply (write_stream_failures {[ "sentences" := [] ]} "trans"
           (World "before" 2 ["t"] []) (World "before" 2 ["t"] []) "IndexError").
  reflexivity.
Defined.

(** X13: however it ends, [write_stream] only adds text at the end of what
    is already written, and changes nothing else. *)
Theorem write_stream_appends (scr : script) (output : string) (w : world) :
  ∃ s, (write_stream scr output w).1 =
       World (stdout w +:+ s) (polls w) (submitted w) (delivered w).
Proof.
  assert (Hsame : w = World (stdout w +:+ "") (polls w) (submitted w) (delivered w)).
  { rewrite app_empty_r. by destruct w. }
  unfold write_stream.
  destruct (scr !! "sentences") as [[|first rest]|]; [by exists ""| |by exists ""].
  unfold bind at 1, py_assert. case_bool_decide; [|by exists ""]. unfold ret at 1.
  unfold bind.
  destruct (print_fields_shape output (first :: rest) w)
    as [[_ ->]|(pre & bad & post & _ & _ & _ & ->)].
  - exists (join (fields output (first :: rest)) +:+ nl). simpl.
    by rewrite app_assoc_str.
  - by eexists.
Qed.

(** ** [set_task] *)

Section set_task_more.
Variable translator : string → exn + script.
Variable finished : nat → nat → bool.
Variable translit : bool.

Local Abbreviation can_deliver := (deliverable translator translit).
Local Abbreviation text_of := (rendered translator translit).
Local Abbreviation to_sink := (stream_result translator translit).
Local Abbreviation drain_loop := (drain translator finished translit).
Local Abbreviation scheduler := (set_task translator finished translit).

(** The world after the result of a deliverable job has been streamed. *)
Lemma sink_world f w :
  can_deliver f →
  to_sink f w =
  (World (stdout w +:+ text_of f) (polls w) (submitted w) (delivered w ++ [f]), Ok tt).
Proof.
  intros (scr & Hscr & sentences & Hsent & Hne & Hall).
  unfold stream_result, result, bind, rendered. rewrite Hscr, Hsent. simpl.
  by rewrite (write_stream_prints _ _ _ _ Hsent Hne Hall).
Qed.

(** The world after the results of deliverable jobs have been streamed from
    the front of a queue, as [close] does. *)
Lemma close_world queue w :
  Forall can_deliver queue →
  for_each to_sink queue w =
  (World (stdout w +:+ join (text_of <$> queue)) (polls w) (submitted w)
     (delivered w ++ queue), Ok tt).
Proof.
  intros Hall. revert w. induction Hall as [|f queue Hf _ IH]; intros w.
  { simpl. unfold ret. rewrite app_nil_r, app_empty_r. by destruct w. }
  rewrite for_each_cons. unfold bind. rewrite (sink_world f w Hf), IH.
  rewrite fmap_cons. change (join (?x :: ?l)) with (x +:+ join l).
  cbn [stdout polls submitted delivered].
  by rewrite app_assoc_str, <- app_assoc.
Qed.

(** Once the head of the queue is found done, in a pool where done jobs stay
    done, the loop empties the queue, from its back. *)
Lemma drain_all fuel queue first w :
  stays_done finished →
  head queue = Some first →
  finished (polls w) (fid first) = true →
  Forall can_deliver queue →
  (length queue < fuel)%nat →
  ∃ n, drain_loop fuel queue w =
       (World (stdout w +:+ join (text_of <$> reverse queue)) n (submitted w)
          (delivered w ++ reverse queue), Ok []).
Proof.
  intros Hstays. revert queue w.
  induction fuel as [|fuel IH]; intros queue w Hhead Hdone Hall Hfuel; [lia|].
  rewrite drain_S. destruct queue as [|first' rest]; [done|].
  injection Hhead as ->. set (queue := first :: rest) in *.
  unfold bind at 1, done. rewrite Hdone.
  destruct (pop_last queue) as (f & -> & Hqueue & Hshorter); [done|].
  assert (Hall' : Forall can_deliver (removelast queue) ∧ can_deliver f).
  { rewrite Hqueue in Hall. apply Forall_app in Hall as [? Hf].
    by rewrite Forall_singleton in Hf. }
  destruct Hall' as [Hkept Hf].
  unfold bind. rewrite (sink_world f _ Hf). cbn [stdout polls submitted delivered].
  assert (Hrev : reverse queue = f :: reverse (removelast queue)).
  { by rewrite Hqueue at 1; rewrite reverse_app. }
  rewrite Hrev, fmap_cons. change (join (?x :: ?l)) with (x +:+ join l).
  destruct (removelast queue) as [|x kept] eqn:Hkept_eq.
  - destruct fuel as [|fuel]; [simpl in Hfuel; lia|].
    rewrite drain_S. unfold ret. eexists. rewrite reverse_nil, fmap_nil.
    change (join []) with "". by rewrite app_empty_r.
  - assert (x = first) as ->.
    { rewrite Hqueue in *. unfold queue in Hqueue. by injection Hqueue as ->. }
    edestruct (IH (first :: kept)) as [n ->]; [done| |done| |].
    + simpl. by apply Hstays.
    + simpl in Hshorter, Hfuel |- *. lia.
    + eexists. cbn [stdout polls submitted delivered].
      by rewrite app_assoc_str, <- app_assoc.
Qed.

(** X14: in a pool where a job found done stays done, a [send] to [set_task]
    either passes nothing to the sink, and the queue grows by the new job, or
    passes it the whole queue, new job included, last submitted first, and
    leaves the queue empty. *)
Theorem send_all_or_nothing (queue : list future) (task : string) (w : world) :
  stays_done finished →
  Forall can_deliver queue →
  can_deliver (Future (S (length (submitted w))) task) →
  ∃ w', ((set_task_send translator finished translit queue task w =
            (w', Ok (queue ++ [Future (S (length (submitted w))) task])) ∧
          delivered w' = delivered w ∧ stdout w' = stdout w) ∨
         (set_task_send translator finished translit queue task w = (w', Ok []) ∧
          delivered w' =
            delivered w ++ reverse (queue ++ [Future (S (length (submitted w))) task]) ∧
          stdout w' =
            stdout w +:+
            join (text_of <$> reverse (queue ++ [Future (S (length (submitted w))) task])))).
Proof.
  intros Hstays Hall Hnew. unfold set_task_send, bind, submit.
  set (f := Future (S (length (submitted w))) task).
  set (w1 := World (stdout w) (polls w) (submitted w ++ [task]) (delivered w)).
  assert (Hall' : Forall can_deliver (queue ++ [f])).
  { apply Forall_app. split; [done|]. by apply Forall_singleton. }
  destruct (queue ++ [f]) as [|first rest] eqn:Hqueue.
  { by destruct queue. }
  destruct (finished (polls w1) (fid first)) eqn:Hdone.
  - edestruct (drain_all (S (length (first :: rest))) (first :: rest) first w1)
      as [n Hrun]; [done..|lia|].
    eexists. right. split; [exact Hrun|]. done.
  - eexists. left.
    split; [rewrite drain_S; unfold bind, done; rewrite Hdone; reflexivity|done].
Qed.


Lemma jobs_deliverable batches :
  Forall (λ task, ∃ scr, translator task = inr scr ∧
                         printable (output translit) scr) batches →
  Forall can_deliver (jobs batches).
Proof.
  induction batches as [|task batches IH] using rev_ind; intros Hall; [constructor|].
  apply Forall_app in Hall as [Hbatches Htask]. rewrite Forall_singleton in Htask.
  rewrite jobs_snoc. apply Forall_app. split; [by apply IH|].
  by apply Forall_singleton.
Qed.

(** The sends when the pool never reports a job done: the queue grows. *)
Lemma sends_nothing_done batches w :
  (∀ n i, finished n i = false) →
  for_each (co_send scheduler) batches (jobs (submitted w), w) =
  ((jobs (submitted w ++ batches),
    World (stdout w) (polls w + length batches) (submitted w ++ batches) (delivered w)),
   Ok tt).
Proof.
  intros Hnever. revert w. induction batches as [|task batches IH]; intros w.
  { simpl. unfold ret. rewrite app_nil_r, Nat.add_0_r. by destruct w. }
  rewrite for_each_cons. unfold bind. rewrite co_send_set_task.
  unfold set_task_send, bind, submit. rewrite <- jobs_snoc, drain_S.
  destruct (jobs (submitted w ++ [task])) as [|first rest] eqn:Hjobs.
  { rewrite jobs_snoc in Hjobs. by destruct (jobs (submitted w)). }
  unfold bind, done. rewrite Hnever. unfold ret. rewrite <- Hjobs.
  specialize (IH (World (stdout w) (S (polls w)) (submitted w ++ [task]) (delivered w))).
  cbn [stdout polls submitted delivered] in IH |- *. rewrite IH.
  rewrite <- app_assoc. simpl. repeat f_equal. lia.
Qed.

(** The sends when the pool reports every job done: the queue stays empty. *)
Lemma sends_all_done batches w :
  (∀ n i, finished n i = true) →
  Forall (λ task, ∃ scr, translator task = inr scr ∧
                         printable (output translit) scr) batches →
  delivered w = jobs (submitted w) →
  stdout w = join (text_of <$> jobs (submitted w)) →
  for_each (co_send scheduler) batches ([], w) =
  (([], World (join (text_of <$> jobs (submitted w ++ batches)))
          (polls w + length batches) (submitted w ++ batches)
          (jobs (submitted w ++ batches))),
   Ok tt).
Proof.
  intros Halways Hall. revert w.
  induction Hall as [|task batches Htask _ IH]; intros w Hdelivered Hprinted.
  { simpl. unfold ret. rewrite app_nil_r, Nat.add_0_r, <- Hprinted, <- Hdelivered.
    by destruct w. }
  rewrite for_each_cons. unfold bind. rewrite co_send_set_task.
  unfold set_task_send, bind, submit. cbn [app length].
  rewrite drain_S. unfold bind at 1, done. rewrite Halways.
  cbn [last removelast stdout polls submitted delivered].
  unfold bind. rewrite sink_world by done.
  rewrite drain_S. unfold ret. cbn [stdout polls submitted delivered].
  rewrite IH; cbn [stdout polls submitted delivered].
  - rewrite <- app_assoc. simpl. repeat f_equal. lia.
  - by rewrite jobs_snoc, Hdelivered.
  - rewrite jobs_snoc, fmap_app, join_app, Hprinted. simpl.
    by rewrite app_empty_r.
Qed.

(** X16: when the pool answers every call of [done] the same way, always
    "not done" or always "done", the results reach the sink in the order of
    submission: what is printed is the text of the results of the batches,
    in order, and [done] has been called once for each batch. *)
Theorem schedule_in_order (answer : bool) (batches : list string) :
  (∀ n i, finished n i = answer) →
  Forall (λ task, ∃ scr, translator task = inr scr ∧
                         printable (output translit) scr) batches →
  schedule translator finished translit batches world0 =
  (World (join (text_of <$> jobs batches)) (length batches) batches (jobs batches),
   Ok tt).
Proof.
  intros Hanswer Hall. unfold schedule, primed. unfold ret at 1. unfold bind.
  destruct answer.
  - rewrite (sends_all_done batches world0 Hanswer Hall eq_refl eq_refl).
    rewrite co_close_set_task. reflexivity.
  - pose proof (sends_nothing_done batches world0 Hanswer) as Hsends.
    change (jobs (submitted world0)) with (@nil future) in Hsends.
    rewrite Hsends, co_close_set_task. unfold set_task_close.
    rewrite close_world by (by apply jobs_deliverable). reflexivity.
Qed.

(** ** The whole pipeline *)

(** The fragments sent to [spool] over [set_task], when the translator
    returns a printable result for every text: what has been submitted,
    followed by the text [spool] keeps, grows by the fragments. *)
Lemma pipeline_sends maxlen frs st queue w :
  0 < maxlen →
  (∀ task, ∃ scr, translator task = inr scr ∧ printable (output translit) scr) →
  delivered w ++ queue ≡ₚ jobs (submitted w) →
  stdout w = join (text_of <$> delivered w) →
  ∃ st' queue' w',
    for_each (co_send (spool scheduler maxlen)) frs (st, (queue, w)) =
      ((st', (queue', w')), Ok tt) ∧
    delivered w' ++ queue' ≡ₚ jobs (submitted w') ∧
    stdout w' = join (text_of <$> delivered w') ∧
    join (submitted w') +:+ text st' = join (submitted w) +:+ text st +:+ join frs.
Proof.
  intros Hpos Htotal. revert st queue w.
  assert (Hdeliver : ∀ q, Forall can_deliver q).
  { intros q. apply Forall_forall. intros f _. apply Htotal. }
  induction frs as [|frag frs IH]; intros st queue w Hinv Hprinted.
  { exists st, queue, w. by rewrite app_empty_r. }
  rewrite for_each_cons. unfold bind at 1.
  change (join (frag :: frs)) with (frag +:+ join frs).
  unfold spool at 1. cbn [co_send]. unfold resume, spool_send.
  rewrite spool_merge_eq. cbn [words text]. case_decide as Hlt.
  - unfold ret.
    destruct (IH (SpoolLocals (words st + Z.of_nat (len frag)) (text st +:+ frag))
                queue w Hinv Hprinted)
      as (st' & queue' & w' & -> & Hinv' & Hprinted' & Hjoin).
    exists st', queue', w'. split; [done|]. split; [done|]. split; [done|].
    cbn [text] in Hjoin. by rewrite Hjoin, !app_assoc_str.
  - unfold bind. rewrite co_send_set_task.
    destruct (send_deliverable translator finished translit queue (text st +:+ frag) w
                (Hdeliver _) (Htotal _) Hinv Hprinted)
      as (queue1 & w1 & -> & _ & Hsub1 & Hinv1 & Hprinted1).
    unfold spool_rewind. rewrite decide_True by done. unfold ret.
    destruct (IH (SpoolLocals 0 "") queue1 w1 Hinv1 Hprinted1)
      as (st' & queue' & w' & -> & Hinv' & Hprinted' & Hjoin).
    exists st', queue', w'. split; [done|]. split; [done|]. split; [done|].
    cbn [text] in Hjoin. rewrite Hjoin, Hsub1, join_app, join_singleton.
    by rewrite !app_assoc_str.
Qed.

(** X17: when the translator returns a printable result for every text and
    no line has a piece between spaces longer than 500 characters, the
    pipeline runs to its end whatever the pool does; the texts submitted to
    the translator, concatenated in order of submission, are the input; the
    result of every job is passed to the sink once; and what is printed is
    the text of these results in the order in which they were passed. *)
Theorem pipeline_conserves_text (maxlen : Z) (stdin : list string) :
  0 < maxlen →
  (∀ task, ∃ scr, translator task = inr scr ∧ printable (output translit) scr) →
  Forall short_pieces stdin →
  ∃ w, pipeline translator finished translit maxlen stdin world0 = (w, Ok tt) ∧
       join (submitted w) = join stdin ∧
       delivered w ≡ₚ jobs (submitted w) ∧
       stdout w = join (text_of <$> delivered w).
Proof.
  intros Hpos Htotal Hshort.
  assert (Hdeliver : ∀ q, Forall can_deliver q).
  { intros q. apply Forall_forall. intros f _. apply Htotal. }
  destruct (forwarded_shape stdin)
    as (frs & o & _ & Htarget & (tail & Hjoin & Htail) & [[-> _]|[_ Hnot]]); [|done].
  rewrite (Htail eq_refl), app_empty_r in Hjoin.
  destruct (pipeline_sends maxlen frs (SpoolLocals 0 "") [] world0 Hpos Htotal)
    as (st1 & queue1 & w1 & Hsends & Hinv1 & Hprinted1 & Hjoin1); [done|done|].
  destruct (send_deliverable translator finished translit queue1 (text st1) w1
              (Hdeliver _) (Htotal _) Hinv1 Hprinted1)
    as (queue2 & w2 & Hsend & _ & Hsub2 & Hinv2 & Hprinted2).
  destruct (close_deliverable translator translit queue2 w2 (Hdeliver _))
    as (w3 & Hclose & Hsub3 & Hdel3 & Hout3).
  exists w3. split; [|split; [|split]].
  - unfold pipeline, primed. unfold ret at 1. unfold spool_rewind.
    rewrite decide_True by done. unfold ret at 1.
    rewrite Htarget. unfold bind at 1. rewrite Hsends.
    cbn [source_end]. unfold spool at 1. cbn [co_close]. unfold finish, spool_close.
    unfold bind. rewrite co_send_set_task, Hsend, co_close_set_task, Hclose. done.
  - rewrite Hsub3, Hsub2, join_app, join_singleton, Hjoin1. simpl. by rewrite Hjoin.
  - by rewrite Hdel3, Hsub3.
  - by rewrite Hout3, Hdel3, Hprinted2, fmap_app, join_app.
Qed.

(** X18: when the translator returns a printable result for every text and
    some line has a piece between spaces longer than 500 characters, the
    pipeline ends with [AssertionError]; when the exception leaves [source],
    the texts submitted so far, concatenated, are a beginning of the input,
    and what is printed is the text of the results passed to the sink. *)
Theorem pipeline_long_piece (maxlen : Z) (stdin : list string) :
  0 < maxlen →
  (∀ task, ∃ scr, translator task = inr scr ∧ printable (output translit) scr) →
  ¬ Forall short_pieces stdin →
  ∃ w, pipeline translator finished translit maxlen stdin world0 =
         (w, Raised "AssertionError") ∧
       (∃ tail, join (submitted w) +:+ tail = join stdin) ∧
       stdout w = join (text_of <$> delivered w).
Proof.
  intros Hpos Htotal Hlong.
  destruct (forwarded_shape stdin)
    as (frs & o & _ & Htarget & (tail & Hjoin & _) & [[_ Hall]|[-> _]]); [done|].
  destruct (pipeline_sends maxlen frs (SpoolLocals 0 "") [] world0 Hpos Htotal)
    as (st1 & queue1 & w1 & Hsends & Hinv1 & Hprinted1 & Hjoin1); [done|done|].
  exists w1. split; [|split; [|done]].
  - unfold pipeline, primed. unfold ret at 1. unfold spool_rewind.
    rewrite decide_True by done. unfold ret at 1.
    rewrite Htarget. unfold bind at 1. rewrite Hsends. done.
  - exists (text st1 +:+ tail). simpl in Hjoin1.
    by rewrite <- app_assoc_str, Hjoin1.
Qed.
End set_task_more.

Lemma finishes_at_stays_done k : stays_done (finishes_at k).
Proof.
  intros n i. unfold finishes_at. rewrite !bool_decide_eq_true. lia.
Qed.

Lemma echo_deliverable translit f : deliverable echo translit f.
Proof. apply echo_printable. Qed.

Lemma send_all_or_nothing_witness :
  ∃ w', ((set_task_send echo (finishes_at 1) false [Future 1 "a"] "b"
            (World "" 1 ["a"] []) =
            (w', Ok ([Future 1 "a"] ++ [Future 2 "b"])) ∧
          delivered w' = [] ∧ stdout w' = "") ∨
         (set_task_send echo (finishes_at 1) false [Future 1 "a"] "b"
            (World "" 1 ["a"] []) = (w', Ok []) ∧
          delivered w' = [] ++ reverse ([Future 1 "a"] ++ [Future 2 "b"]) ∧
          stdout w' =
            "" +:+ join (rendered echo false <$>
                         reverse ([Future 1 "a"] ++ [Future 2 "b"])))).
Proof.
  apply (send_all_or_nothing echo (finishes_at 1) false [Future 1 "a"] "b"
           (World "" 1 ["a"] [])).
  - apply finishes_at_stays_done.
  - apply Forall_singleton, echo_deliverable.
  - apply echo_deliverable.
Defined.


Lemma schedule_in_order_witness :
  schedule echo (finishes_at 0) false ["a"; "b"; "c"] world0 =
  (World (join (rendered echo false <$> jobs ["a"; "b"; "c"])) 3 ["a"; "b"; "c"]
     (jobs ["a"; "b"; "c"]), Ok tt).
Proof.
  apply (schedule_in_order echo (finishes_at 0) false true ["a"; "b"; "c"]).
  - intros n i. apply bool_decide_eq_true. lia.
  - apply Forall_forall. intros task _. apply echo_printable.
Defined.

Lemma pipeline_conserves_text_witness :
  ∃ w, pipeline echo (finishes_at 1) false 5 ["hello world" +:+ nl; "foo" +:+ nl] world0 =
         (w, Ok tt) ∧
       join (submitted w) = join ["hello world" +:+ nl; "foo" +:+ nl] ∧
       delivered w ≡ₚ jobs (submitted w) ∧
       stdout w = join (rendered echo false <$> delivered w).
Proof.
  apply (pipeline_conserves_text echo (finishes_at 1) false 5
           ["hello world" +:+ nl; "foo" +:+ nl]).
  - lia.
  - intros task. apply echo_printable.
  - apply (bool_decide_unpack _). vm_compute. exact I.
Defined.

Lemma pipeline_long_piece_witness :
  ∃ w, pipeline echo (finishes_at 1) false 5
         ["ab cd"; "ef " +:+ replicate_char 501 "x"] world0 =
         (w, Raised "AssertionError") ∧
       (∃ tail, join (submitted w) +:+ tail =
                join ["ab cd"; "ef " +:+ replicate_char 501 "x"]) ∧
       stdout w = join (rendered echo false <$> delivered w).
Proof.
  apply (pipeline_long_piece echo (finishes_at 1) false 5
           ["ab cd"; "ef " +:+ replicate_char 501 "x"]).
  - lia.
  - intros task. apply echo_printable.
  - apply (bool_decide_unpack _). vm_compute. exact I.
Defined.

(** ** [spool], against any downstream coroutine *)



